(** * sokol-shdc command line front end: [src/shdc/args.cc]

    A shallow embedding of the argument parser of the shader compiler
    (option table, [parse_slang], [validate], [args_t::parse]) together with
    the properties of its specification.

    Conventions.
    - [uint32_t] and [int] values are carried as [Z]; every mask the parser
      builds is an OR of bits 0..5, so no wrap-around can occur (see
      [parse_slang_items_range]).
    - [std::string] is [string]; [fmt::print (stderr, ...)] appends one
      [stderr_write] to the diagnostic stream.  Functions return the writes
      they perform, in order; the functions with the suffix [_st] are the
      same code with the stream passed through explicitly. *)

From Stdlib Require Import String Ascii ZArith List Bool Lia.
Import ListNotations.

Local Open Scope string_scope.
Local Open Scope Z_scope.

(** ** Characters and text helpers *)

(** The [int] value of a character constant such as ['h']. *)
Definition chr (c : ascii) : Z := Z.of_N (N_of_ascii c).

(** The newline escape of the format strings. *)
Definition nl : string := String (ascii_of_nat 10) EmptyString.

(** ** [types.h]: shader languages and the result structure *)

Module slang_t.

(** Modelled from the spec: [types.h] is not under src/; it declares the
    closed enumeration of shader languages.  The members, their order and
    their canonical names are the six names listed in the value
    description of the [slang] option in [option_list]; bit positions are
    dense, starting at zero. *)
Inductive type_t : Set :=
| GLSL330 | GLSL100 | GLSL300ES | HLSL5 | METAL_MACOS | METAL_IOS.

(** The enumerators in increasing order: the values [0 .. NUM-1] that the
    loop [for (int i = 0; i < slang_t::NUM; i++)] runs through. *)
Definition all : list type_t :=
  [GLSL330; GLSL100; GLSL300ES; HLSL5; METAL_MACOS; METAL_IOS].

Definition NUM : Z := Z.of_nat (length all).

(** The integer value of an enumerator. *)
Definition index (c : type_t) : Z :=
  match c with
  | GLSL330 => 0 | GLSL100 => 1 | GLSL300ES => 2
  | HLSL5 => 3 | METAL_MACOS => 4 | METAL_IOS => 5
  end.

(** Modelled from the spec: [slang_t::to_str] of [types.h], the canonical
    lowercase name of a language. *)
Definition to_str (c : type_t) : string :=
  match c with
  | GLSL330 => "glsl330"
  | GLSL100 => "glsl100"
  | GLSL300ES => "glsl300es"
  | HLSL5 => "hlsl5"
  | METAL_MACOS => "metal_macos"
  | METAL_IOS => "metal_ios"
  end.

(** Modelled from the spec: [slang_t::bit] of [types.h], the unique bit of
    a language in the mask, [1 << c]. *)
Definition bit (c : type_t) : Z := Z.shiftl 1 (index c).

End slang_t.

(** Modelled from the spec: [args_t] of [types.h] (section 3,
    ParsedArguments).  Field names are the ones [args.cc] uses. *)
Record args_t : Set := mk_args {
  valid : bool;
  exit_code : Z;
  input : string;
  output : string;
  slang : Z;
  byte_code : bool;
  debug_dump : bool
}.

(** Modelled from the spec: the default member initialisers of [args_t]
    ("created with all-empty/zero defaults").  Every path through
    [args_t::parse] assigns [valid] and [exit_code] before it returns, so
    the result of a parse does not depend on their initial values
    (see [parse_from_init_irrelevant]). *)
Definition args_default : args_t :=
  {| valid := false; exit_code := 0; input := ""; output := "";
     slang := 0; byte_code := false; debug_dump := false |}.

Definition set_valid (a : args_t) (v : bool) : args_t :=
  {| valid := v; exit_code := exit_code a; input := input a;
     output := output a; slang := slang a; byte_code := byte_code a;
     debug_dump := debug_dump a |}.

Definition set_exit_code (a : args_t) (v : Z) : args_t :=
  {| valid := valid a; exit_code := v; input := input a;
     output := output a; slang := slang a; byte_code := byte_code a;
     debug_dump := debug_dump a |}.

Definition set_input (a : args_t) (v : string) : args_t :=
  {| valid := valid a; exit_code := exit_code a; input := v;
     output := output a; slang := slang a; byte_code := byte_code a;
     debug_dump := debug_dump a |}.

Definition set_output (a : args_t) (v : string) : args_t :=
  {| valid := valid a; exit_code := exit_code a; input := input a;
     output := v; slang := slang a; byte_code := byte_code a;
     debug_dump := debug_dump a |}.

Definition set_slang (a : args_t) (v : Z) : args_t :=
  {| valid := valid a; exit_code := exit_code a; input := input a;
     output := output a; slang := v; byte_code := byte_code a;
     debug_dump := debug_dump a |}.

Definition set_byte_code (a : args_t) (v : bool) : args_t :=
  {| valid := valid a; exit_code := exit_code a; input := input a;
     output := output a; slang := slang a; byte_code := v;
     debug_dump := debug_dump a |}.

Definition set_debug_dump (a : args_t) (v : bool) : args_t :=
  {| valid := valid a; exit_code := exit_code a; input := input a;
     output := output a; slang := slang a; byte_code := byte_code a;
     debug_dump := v |}.

(** ** [getopt/getopt.h]: the option table *)

Inductive getopt_option_type_t : Set :=
| GETOPT_OPTION_TYPE_NO_ARG
| GETOPT_OPTION_TYPE_REQUIRED.

Record getopt_option_t : Set := mk_option {
  name : string;
  name_short : ascii;
  type : getopt_option_type_t;
  value : ascii;
  desc : string;
  value_desc : string
}.

(** [option_list], lines 13-21 (the [flag] pointer, null everywhere, and the
    end marker are left out). *)
Definition option_list : list getopt_option_t :=
  [ mk_option "help" "h" GETOPT_OPTION_TYPE_NO_ARG "h"
      "print this help text" "";
    mk_option "input" "i" GETOPT_OPTION_TYPE_REQUIRED "i"
      "input source file" "GLSL file";
    mk_option "output" "o" GETOPT_OPTION_TYPE_REQUIRED "o"
      "output source file" "C header";
    mk_option "slang" "l" GETOPT_OPTION_TYPE_REQUIRED "l"
      "output shader language(s)"
      "glsl330:glsl100:glsl300es:hlsl5:metal_macos:metal_ios";
    mk_option "bytecode" "b" GETOPT_OPTION_TYPE_NO_ARG "b"
      "output bytecode (HLSL and Metal)" "";
    mk_option "dump" "d" GETOPT_OPTION_TYPE_NO_ARG "d"
      "dump debugging information to stderr" "" ].

(** ** The diagnostic stream *)

(** One write to [stderr].  [Emit] carries the text of a [fmt::print] call
    with its format expanded; [EmitOptionsHelp] stands for the table that
    [getopt_create_help_string] renders from the option table (getopt is not
    under src/, so its layout is left uninterpreted). *)
Inductive stderr_write : Set :=
| Emit (text : string)
| EmitOptionsHelp (opts : list getopt_option_t).

Definition stderr_t : Set := list stderr_write.

(** ** [pystring::split] *)

(** Modelled from the spec: [pystring::split] is not under src/ ("split the
    input on [:]").  pystring mirrors Python's [str.split (sep)]: the text is
    cut at every occurrence of the separator and every piece is pushed, the
    empty ones too, so a text with n separators yields n+1 pieces.  The only
    call site passes the one-character separator ":" and no limit on the
    number of cuts.  [cur] is the piece being read (the characters since the
    last separator). *)
Fixpoint split_from (cur : string) (str : string) (sep : ascii)
  : list string :=
  match str with
  | EmptyString => [cur]
  | String c rest =>
      if Ascii.eqb c sep then cur :: split_from EmptyString rest sep
      else split_from (cur ++ String c EmptyString) rest sep
  end.

Definition split (str : string) (sep : ascii) : list string :=
  split_from EmptyString str sep.

(** The inverse direction, used to state properties of [split]: the items
    written one after the other with [sep] between neighbours. *)
Fixpoint join (sep : ascii) (items : list string) : string :=
  match items with
  | [] => EmptyString
  | [x] => x
  | x :: rest => x ++ String sep (join sep rest)
  end.

(** [has_char c s]: the character occurs in the text. *)
Fixpoint has_char (c : ascii) (s : string) : bool :=
  match s with
  | EmptyString => false
  | String c' rest => Ascii.eqb c' c || has_char c rest
  end.

(** ** [parse_slang], lines 47-68 *)

(** The inner loop, lines 53-59: the first enumerator, in increasing order,
    whose canonical name equals the item. *)
Definition find_slang (item : string) : option slang_t.type_t :=
  find (fun c => String.eqb item (slang_t.to_str c)) slang_t.all.

(** The outer loop, lines 51-66, over the pieces still to be read.  The
    boolean is the value [parse_slang] returns. *)
Fixpoint parse_slang_items (args : args_t) (splits : list string)
  : bool * args_t * stderr_t :=
  match splits with
  | [] => (true, args, [])
  | item :: rest =>
      match find_slang item with
      | Some c =>
          parse_slang_items
            (set_slang args (Z.lor (slang args) (slang_t.bit c))) rest
      | None =>
          (false,
           set_exit_code (set_valid args false) 10,
           [Emit ("error: unknown shader language '" ++ item ++ "'" ++ nl)])
      end
  end.

Definition parse_slang (args : args_t) (str : string)
  : bool * args_t * stderr_t :=
  parse_slang_items (set_slang args 0) (split str ":").

(** ** [validate], lines 70-92 *)

Definition is_empty (s : string) : bool :=
  match s with EmptyString => true | _ => false end.

Definition validate (args : args_t) : args_t * stderr_t :=
  let err := false in
  let '(err, out1) :=
    if is_empty (input args)
    then (true, [Emit ("error: no input file (--input [path])" ++ nl)])
    else (err, []) in
  let '(err, out2) :=
    if is_empty (output args)
    then (true, [Emit ("error: no output file (--output [path])" ++ nl)])
    else (err, []) in
  let '(err, out3) :=
    if slang args =? 0
    then (true, [Emit ("error: no shader languages (--slang ...)" ++ nl)])
    else (err, []) in
  if err
  then (set_exit_code (set_valid args false) 10, (out1 ++ out2 ++ out3)%list)
  else (set_exit_code (set_valid args true) 0, (out1 ++ out2 ++ out3)%list).

(** ** [print_help_string], lines 23-44 *)

Definition help_preamble : string :=
  "Shader compiler / code generator for sokol_gfx.h based on GLslang + SPIRV-Cross" ++ nl ++
  "https://github.com/floooh/sokol-tools" ++ nl ++ nl ++
  "Usage: sokol-shdc -i input [-o output] [options]" ++ nl ++ nl ++
  "Where [input] is exactly one .glsl file, and [output] is a C header" ++ nl ++
  "with embedded shader source code and/or byte code, and code-generated" ++ nl ++
  "uniform-block and shader-descripton C structs ready for use with sokol_gfx.h" ++ nl ++ nl ++
  "The input source file may contains custom '@-tags' to group the" ++ nl ++
  "source code for several shaders and reusable code blocks into one file:" ++ nl ++ nl ++
  "  - @block name: a general reusable code block" ++ nl ++
  "  - @vs name: a named vertex shader code block" ++ nl ++
  "  - @fs name: a named fragment shader code block" ++ nl ++
  "  - @end: ends a @vs, @fs or @block code block" ++ nl ++
  "  - @include block_name: include a code block in a @vs or @fs block" ++ nl ++
  "  - @program name vs_name fs_name: a named, linked shader program" ++ nl ++ nl ++
  "An input file must contain at least one @vs block, one @fs block" ++ nl ++
  "and one @program declaration." ++ nl ++ nl ++
  "Options:" ++ nl ++ nl.

Definition print_help_string (opts : list getopt_option_t) : stderr_t :=
  [Emit help_preamble; EmitOptionsHelp opts].

(** ** The scanner: [getopt_create_context] and [getopt_next] *)

(** The codes [getopt_next] uses for its own events. *)
Definition reserved_code (c : ascii) : bool :=
  Ascii.eqb c "+" || Ascii.eqb c "?" || Ascii.eqb c "!".

(** Modelled from the spec: [getopt_create_context] is not under src/.  The
    spec has no failure state for setting up the scanner on the fixed table
    (section 4.5: START, then SCANNING).  The model refuses only a table one
    of whose codes is an event code of the scanner itself, which
    [option_list] does not have: on [option_list] the result is 0. *)
Definition getopt_create_context (opts : list getopt_option_t) : Z :=
  if existsb (fun o => reserved_code (value o)) opts then -1 else 0.

Inductive token_kind : Set :=
| TokStray
| TokOption (o : option getopt_option_t).

(** Modelled from the spec: how the scanner reads one token (section 4.2 and
    the table of section 6).  A token that does not start with a dash is a
    stray positional; a dash and one character is looked up by short code,
    two dashes and a name by long name; any other dashed token is an
    unknown flag. *)
Definition classify (opts : list getopt_option_t) (tok : string)
  : token_kind :=
  match tok with
  | String "-" (String "-" long) =>
      TokOption (find (fun o => String.eqb (name o) long) opts)
  | String "-" (String c EmptyString) =>
      TokOption (find (fun o => Ascii.eqb (name_short o) c) opts)
  | String "-" _ => TokOption None
  | _ => TokStray
  end.

(** One result of [getopt_next]: the value it returns and the text it leaves
    in [ctx.current_opt_arg]. *)
Definition getopt_event : Set := (Z * string)%type.

(** Modelled from the spec: the results of the successive calls of
    [getopt_next] on a context, up to the call that returns -1 (getopt is
    not under src/).  Section 4.2: events come in token order; a flag that
    requires a value consumes the following token as that value; a missing
    value is an invalid usage; an unknown flag does not stop the scan. *)
Fixpoint getopt_events (opts : list getopt_option_t) (argv : list string)
  : list getopt_event :=
  match argv with
  | [] => []
  | tok :: rest =>
      match classify opts tok with
      | TokStray => (chr "+", tok) :: getopt_events opts rest
      | TokOption None => (chr "?", tok) :: getopt_events opts rest
      | TokOption (Some o) =>
          match type o with
          | GETOPT_OPTION_TYPE_NO_ARG =>
              (chr (value o), EmptyString) :: getopt_events opts rest
          | GETOPT_OPTION_TYPE_REQUIRED =>
              match rest with
              | [] => [(chr "!", name o)]
              | v :: rest' => (chr (value o), v) :: getopt_events opts rest'
              end
          end
      end
  end.

(** ** [args_t::parse], lines 94-143 *)

(** How the body of the [switch] leaves: [Continue] for [break] (the loop
    goes on), [Returned] for [return args]. *)
Inductive flow : Set := Continue | Returned.

(** The [switch], lines 103-138, on one result of [getopt_next]. *)
Definition parse_opt (args : args_t) (opt : Z) (current_opt_arg : string)
  : flow * args_t * stderr_t :=
  if opt =? chr "+" then
    (Continue, args,
     [Emit ("got argument without flag: " ++ current_opt_arg ++ nl)])
  else if opt =? chr "?" then
    (Continue, args, [Emit ("unknown flag " ++ current_opt_arg ++ nl)])
  else if opt =? chr "!" then
    (Continue, args, [Emit ("invalid use of flag " ++ current_opt_arg ++ nl)])
  else if opt =? chr "i" then
    (Continue, set_input args current_opt_arg, [])
  else if opt =? chr "o" then
    (Continue, set_output args current_opt_arg, [])
  else if opt =? chr "b" then
    (Continue, set_byte_code args true, [])
  else if opt =? chr "d" then
    (Continue, set_debug_dump args true, [])
  else if opt =? chr "l" then
    let '(ok, args', out) := parse_slang args current_opt_arg in
    if ok then (Continue, args', out) else (Returned, args', out)
  else if opt =? chr "h" then
    (Returned, set_exit_code (set_valid args false) 0,
     print_help_string option_list)
  else
    (Continue, args, []).

(** The [while] loop, lines 102-139, over the results [getopt_next] still
    has to deliver. *)
Fixpoint parse_loop (args : args_t) (evs : list getopt_event)
  : flow * args_t * stderr_t :=
  match evs with
  | [] => (Continue, args, [])
  | (opt, current_opt_arg) :: rest =>
      match parse_opt args opt current_opt_arg with
      | (Returned, args', out) => (Returned, args', out)
      | (Continue, args', out) =>
          let '(f, args'', out') := parse_loop args' rest in
          (f, args'', (out ++ out')%list)
      end
  end.

(** Lines 101-142 from a given initial [args]: the loop, then [validate]
    unless the loop returned. *)
Definition parse_from (args : args_t) (evs : list getopt_event)
  : args_t * stderr_t :=
  match parse_loop args evs with
  | (Returned, args', out) => (args', out)
  | (Continue, args', out) =>
      let '(args'', out') := validate args' in (args'', (out ++ out')%list)
  end.

Definition parse_events (evs : list getopt_event) : args_t * stderr_t :=
  parse_from args_default evs.

(** [args_t::parse]; [argv] is the argument vector without the program
    name.  The result is the returned structure and the writes to [stderr]
    in the order they are made. *)
Definition parse (argv : list string) : args_t * stderr_t :=
  if getopt_create_context option_list <? 0 then
    let '(args, out) := validate args_default in
    (args, Emit ("error in getopt_create_context()" ++ nl) :: out)
  else
    parse_events (getopt_events option_list argv).

(** ** The same code with [stderr] as explicit state *)









(** ** Decoding a mask *)

(** The languages whose bit is set in a mask. *)
Definition mask_members (mask : Z) : list slang_t.type_t :=
  filter (fun c => negb (Z.land mask (slang_t.bit c) =? 0)) slang_t.all.

(** The mask of a list of languages: the OR of their bits. *)
Definition mask_of (ls : list slang_t.type_t) : Z :=
  fold_left (fun m c => Z.lor m (slang_t.bit c)) ls 0.

(** ** Predicates on scanner results, used in the statements *)

(** The item is the canonical name of some language. *)
Definition known (item : string) : bool :=
  match find_slang item with Some _ => true | None => false end.

(** Every piece of the text is a canonical name: [parse_slang] succeeds
    (see [parse_slang_result]). *)
Definition slang_ok (str : string) : bool :=
  forallb known (split str ":").

(** The mask [parse_slang] leaves for a text: it does not depend on the
    structure the call starts from (see [parse_opt_slang]). *)
Definition slang_of (str : string) : Z :=
  slang (snd (fst (parse_slang args_default str))).

Definition is_opt (c : ascii) (ev : getopt_event) : bool :=
  fst ev =? chr c.

(** The event does not end the parse: it is neither the help flag nor a
    [-l] whose value fails to parse. *)
Definition continues (ev : getopt_event) : bool :=
  negb (is_opt "h" ev) && (negb (is_opt "l" ev) || slang_ok (snd ev)).

(** The value of the last event with code [c], if there is one. *)
Fixpoint last_arg (c : ascii) (evs : list getopt_event) : option string :=
  match evs with
  | [] => None
  | ev :: rest =>
      match last_arg c rest with
      | Some v => Some v
      | None => if is_opt c ev then Some (snd ev) else None
      end
  end.

(** The structure after the [switch] has run on each event in turn. *)
Definition args_after (args : args_t) (evs : list getopt_event) : args_t :=
  fold_left (fun a ev => snd (fst (parse_opt a (fst ev) (snd ev)))) evs args.

(** The writes of the [switch] on one event that does not touch [args]. *)
Definition scan_writes (ev : getopt_event) : stderr_t :=
  snd (parse_opt args_default (fst ev) (snd ev)).

(** The three checks of [validate], and the message of each. *)
Definition checks_pass (args : args_t) : bool :=
  negb (is_empty (input args)) && negb (is_empty (output args))
  && negb (slang args =? 0).

Definition msg_no_input : stderr_write :=
  Emit ("error: no input file (--input [path])" ++ nl).
Definition msg_no_output : stderr_write :=
  Emit ("error: no output file (--output [path])" ++ nl).
Definition msg_no_slang : stderr_write :=
  Emit ("error: no shader languages (--slang ...)" ++ nl).

Definition validate_writes (args : args_t) : stderr_t :=
  ((if is_empty (input args) then [msg_no_input] else []) ++
   (if is_empty (output args) then [msg_no_output] else []) ++
   (if slang args =? 0 then [msg_no_slang] else []))%list.

(** What the loop of [parse_slang] computes, without the structure: the mask
    after the pieces read, and the first piece that is no canonical name, at
    which the loop stops. *)
Fixpoint scan_items (m : Z) (items : list string) : Z * option string :=
  match items with
  | [] => (m, None)
  | item :: rest =>
      match find_slang item with
      | Some c => scan_items (Z.lor m (slang_t.bit c)) rest
      | None => (m, Some item)
      end
  end.

Definition msg_unknown_slang (item : string) : stderr_write :=
  Emit ("error: unknown shader language '" ++ item ++ "'" ++ nl).

(** The first event at which the [switch] returns, if there is one: the
    event that ends the parse before the validator. *)
Definition first_stop (evs : list getopt_event) : option getopt_event :=
  find (fun ev => negb (continues ev)) evs.

(** The parse ends at the help flag. *)
Definition help_reached (evs : list getopt_event) : bool :=
  match first_stop evs with
  | Some ev => is_opt "h" ev
  | None => false
  end.


(** Case analysis on the value [getopt_next] returned, in the order of the
    [case] labels. *)
Ltac switch_on opt :=
  repeat match goal with
         | |- context [opt =? chr ?c] =>
             destruct (Z.eqb_spec opt (chr c)); [subst opt|]
         end.

(** * Properties *)

(** ** Text *)

Lemma append_nil_r (s : string) : s ++ EmptyString = s.
Proof. induction s as [|c s IH]; simpl; [reflexivity | now rewrite IH]. Qed.

Lemma append_assoc (s t u : string) : (s ++ t) ++ u = s ++ (t ++ u).
Proof. induction s as [|c s IH]; simpl; [reflexivity | now rewrite IH]. Qed.

(** A text without the separator is one piece. *)
Lemma split_from_no_sep (sep : ascii) (s : string) :
  has_char sep s = false ->
  forall cur, split_from cur s sep = [cur ++ s].
Proof.
  induction s as [|c s IH]; simpl; intros H cur.
  - now rewrite append_nil_r.
  - apply orb_false_iff in H. destruct H as [Hc Hs].
    rewrite Hc, (IH Hs), append_assoc. reflexivity.
Qed.

(** Reading up to the first separator closes the current piece. *)
Lemma split_from_sep (sep : ascii) (s t : string) :
  has_char sep s = false ->
  forall cur,
    split_from cur (s ++ String sep t) sep
    = (cur ++ s) :: split_from EmptyString t sep.
Proof.
  induction s as [|c s IH]; simpl; intros H cur.
  - now rewrite Ascii.eqb_refl, append_nil_r.
  - apply orb_false_iff in H. destruct H as [Hc Hs].
    rewrite Hc, (IH Hs), append_assoc. reflexivity.
Qed.

(** [split] undoes [join] on a non-empty list of separator-free items. *)
Lemma split_join (sep : ascii) (x : string) (xs : list string) :
  forallb (fun s => negb (has_char sep s)) (x :: xs) = true ->
  split (join sep (x :: xs)) sep = x :: xs.
Proof.
  unfold split. revert x.
  induction xs as [|y ys IH]; intros x H.
  - simpl in *. rewrite andb_true_r in H.
    apply negb_true_iff in H. now rewrite split_from_no_sep.
  - change (join sep (x :: y :: ys))
      with (x ++ String sep (join sep (y :: ys))).
    simpl forallb in H. apply andb_true_iff in H. destruct H as [Hx H].
    apply negb_true_iff in Hx.
    rewrite split_from_sep by assumption. simpl append.
    f_equal. apply IH. exact H.
Qed.

Lemma split_not_nil (sep : ascii) (s : string) :
  forall cur, split_from cur s sep <> [].
Proof.
  induction s as [|c s IH]; simpl; intros cur; [discriminate|].
  destruct (Ascii.eqb c sep); [discriminate | apply IH].
Qed.

(** ** Shader languages *)

Lemma find_slang_to_str (c : slang_t.type_t) :
  find_slang (slang_t.to_str c) = Some c.
Proof. destruct c; reflexivity. Qed.

Lemma find_slang_some (item : string) (c : slang_t.type_t) :
  find_slang item = Some c -> item = slang_t.to_str c.
Proof.
  unfold find_slang. intros H. apply find_some in H.
  destruct H as [_ H]. now apply String.eqb_eq in H.
Qed.

Lemma known_iff (item : string) :
  known item = true <-> exists c, item = slang_t.to_str c.
Proof.
  unfold known. split.
  - destruct (find_slang item) as [c|] eqn:E; [|discriminate].
    intros _. exists c. now apply find_slang_some.
  - intros [c ->]. now rewrite find_slang_to_str.
Qed.

Lemma to_str_no_colon (c : slang_t.type_t) :
  has_char ":" (slang_t.to_str c) = false.
Proof. destruct c; reflexivity. Qed.

Lemma index_inj (a b : slang_t.type_t) :
  slang_t.index a = slang_t.index b -> a = b.
Proof. destruct a, b; simpl; intros H; try reflexivity; discriminate. Qed.

Lemma index_range (c : slang_t.type_t) :
  0 <= slang_t.index c < slang_t.NUM.
Proof. destruct c; vm_compute; split; congruence. Qed.

Lemma in_all (c : slang_t.type_t) : In c slang_t.all.
Proof. destruct c; simpl; tauto. Qed.

(** ** Masks *)

Lemma bit_testbit (c : slang_t.type_t) (i : Z) :
  Z.testbit (slang_t.bit c) i = (slang_t.index c =? i).
Proof.
  unfold slang_t.bit. rewrite Z.shiftl_1_l.
  apply Z.pow2_bits_eqb. apply index_range.
Qed.

(** Testing a mask against the bit of a language reads that bit. *)
Lemma land_bit_zero (m : Z) (c : slang_t.type_t) :
  (Z.land m (slang_t.bit c) =? 0) = negb (Z.testbit m (slang_t.index c)).
Proof.
  destruct (Z.testbit m (slang_t.index c)) eqn:E; simpl.
  - apply Z.eqb_neq. intros H.
    assert (T : Z.testbit (Z.land m (slang_t.bit c)) (slang_t.index c) = true).
    { now rewrite Z.land_spec, E, bit_testbit, Z.eqb_refl. }
    rewrite H, Z.bits_0 in T. discriminate.
  - apply Z.eqb_eq. apply Z.bits_inj'. intros j _.
    rewrite Z.land_spec, Z.bits_0, bit_testbit.
    destruct (Z.eqb_spec (slang_t.index c) j) as [<-|_].
    + now rewrite E.
    + apply andb_false_r.
Qed.

Lemma fold_lor_testbit (ls : list slang_t.type_t) :
  forall (m i : Z),
    Z.testbit (fold_left (fun m c => Z.lor m (slang_t.bit c)) ls m) i
    = Z.testbit m i || existsb (fun c => slang_t.index c =? i) ls.
Proof.
  induction ls as [|c ls IH]; intros m i; simpl.
  - now rewrite orb_false_r.
  - now rewrite IH, Z.lor_spec, bit_testbit, orb_assoc.
Qed.

(** Decoding the mask of a list of languages gives back its members. *)
Lemma mask_members_mask_of (ls : list slang_t.type_t) (c : slang_t.type_t) :
  In c (mask_members (mask_of ls)) <-> In c ls.
Proof.
  unfold mask_members, mask_of. rewrite filter_In, land_bit_zero.
  rewrite negb_involutive, fold_lor_testbit, Z.bits_0. simpl.
  rewrite existsb_exists. split.
  - intros [_ [x [Hx E]]]. apply Z.eqb_eq in E.
    now rewrite <- (index_inj _ _ E).
  - intros H. split; [apply in_all|].
    exists c. split; [exact H | apply Z.eqb_refl].
Qed.

Lemma fold_lor_range (ls : list slang_t.type_t) :
  forall m, 0 <= m < 2 ^ slang_t.NUM ->
    0 <= fold_left (fun m c => Z.lor m (slang_t.bit c)) ls m
      < 2 ^ slang_t.NUM.
Proof.
  induction ls as [|c ls IH]; intros m Hm; simpl; [exact Hm|].
  apply IH.
  assert (Hb : 0 <= slang_t.bit c < 2 ^ slang_t.NUM)
    by (destruct c; vm_compute; split; congruence).
  split.
  - apply Z.lor_nonneg. lia.
  - destruct (Z.eq_dec (Z.lor m (slang_t.bit c)) 0) as [->|Hz];
      [reflexivity|].
    apply Z.log2_lt_pow2; [|rewrite Z.log2_lor by lia].
    + assert (0 <= Z.lor m (slang_t.bit c)) by (apply Z.lor_nonneg; lia).
      lia.
    + apply Z.max_lub_lt.
      * destruct (Z.eq_dec m 0) as [->|]; [reflexivity|].
        apply Z.log2_lt_pow2; lia.
      * destruct c; reflexivity.
Qed.

(** ** [parse_slang] *)

Lemma set_slang_twice (a : args_t) (m m' : Z) :
  set_slang (set_slang a m) m' = set_slang a m'.
Proof. reflexivity. Qed.

Lemma set_slang_same (a : args_t) : set_slang a (slang a) = a.
Proof. destruct a; reflexivity. Qed.

(** The loop of [parse_slang] in terms of [scan_items]: on success only the
    mask changes and nothing is written; at the first unknown piece the mask
    built so far stays, [valid] and [exit_code] are set, and the one message
    names the piece. *)
Lemma parse_slang_items_scan (items : list string) :
  forall args,
    parse_slang_items args items =
    match scan_items (slang args) items with
    | (m, None) => (true, set_slang args m, [])
    | (m, Some bad) =>
        (false, set_exit_code (set_valid (set_slang args m) false) 10,
         [msg_unknown_slang bad])
    end.
Proof.
  induction items as [|item rest IH]; intros args; simpl.
  - now rewrite set_slang_same.
  - destruct (find_slang item) as [c|] eqn:E.
    + rewrite IH. simpl slang.
      destruct (scan_items _ rest) as [m [bad|]]; reflexivity.
    + now rewrite set_slang_same.
Qed.

Lemma parse_slang_scan (args : args_t) (str : string) :
  parse_slang args str =
  match scan_items 0 (split str ":") with
  | (m, None) => (true, set_slang args m, [])
  | (m, Some bad) =>
      (false, set_exit_code (set_valid (set_slang args m) false) 10,
       [msg_unknown_slang bad])
  end.
Proof.
  unfold parse_slang. rewrite parse_slang_items_scan. simpl slang.
  destruct (scan_items 0 _) as [m [bad|]]; reflexivity.
Qed.

Lemma scan_items_names (ls : list slang_t.type_t) :
  forall m,
    scan_items m (map slang_t.to_str ls)
    = (fold_left (fun m c => Z.lor m (slang_t.bit c)) ls m, None).
Proof.
  induction ls as [|c ls IH]; intros m; simpl; [reflexivity|].
  now rewrite find_slang_to_str, IH.
Qed.

Lemma scan_items_stop (pre : list slang_t.type_t) (bad : string)
      (post : list string) :
  find_slang bad = None ->
  forall m,
    scan_items m (map slang_t.to_str pre ++ bad :: post)
    = (fold_left (fun m c => Z.lor m (slang_t.bit c)) pre m, Some bad).
Proof.
  intros Hbad. induction pre as [|c pre IH]; intros m; simpl.
  - now rewrite Hbad.
  - now rewrite find_slang_to_str, IH.
Qed.

Lemma scan_items_none (items : list string) :
  forall m, snd (scan_items m items) = None <-> forallb known items = true.
Proof.
  induction items as [|item rest IH]; intros m; simpl.
  - tauto.
  - unfold known at 1. destruct (find_slang item) as [c|]; simpl.
    + apply IH.
    + split; discriminate.
Qed.

(** The loop only ever adds language bits to the mask. *)
Lemma scan_items_range (items : list string) :
  forall m, 0 <= m < 2 ^ slang_t.NUM ->
    0 <= fst (scan_items m items) < 2 ^ slang_t.NUM.
Proof.
  induction items as [|item rest IH]; intros m Hm; simpl; [exact Hm|].
  destruct (find_slang item) as [c|]; [|exact Hm].
  apply IH. exact (fold_lor_range [c] m Hm).
Qed.

(** Every mask [parse_slang] writes fits the six language bits, so the
    [uint32_t] arithmetic never wraps. *)
Lemma parse_slang_items_range (args : args_t) (str : string) :
  0 <= slang (snd (fst (parse_slang args str))) < 2 ^ slang_t.NUM.
Proof.
  rewrite parse_slang_scan.
  assert (H := scan_items_range (split str ":") 0).
  destruct (scan_items 0 _) as [m [bad|]]; simpl in *;
    apply H; vm_compute; split; congruence.
Qed.

(** [parse_slang] returns [true] exactly when every piece is known. *)
Lemma parse_slang_result (args : args_t) (str : string) :
  fst (fst (parse_slang args str)) = slang_ok str.
Proof.
  rewrite parse_slang_scan. unfold slang_ok.
  assert (H := scan_items_none (split str ":") 0).
  destruct (scan_items 0 _) as [m [bad|]]; simpl in *.
  - symmetry. apply not_true_is_false. intros T.
    apply H in T. discriminate.
  - symmetry. now apply H.
Qed.

(** The mask after a successful [parse_slang] is that of the text alone. *)
Lemma parse_slang_ok (args : args_t) (str : string) :
  slang_ok str = true ->
  parse_slang args str = (true, set_slang args (slang_of str), []).
Proof.
  intros Hok. unfold slang_of. rewrite !parse_slang_scan.
  apply (scan_items_none (split str ":") 0) in Hok.
  destruct (scan_items 0 _) as [m [bad|]]; simpl in *;
    [discriminate | reflexivity].
Qed.

Lemma parse_slang_fail (args : args_t) (str : string) :
  slang_ok str = false ->
  exists m bad,
    scan_items 0 (split str ":") = (m, Some bad) /\
    parse_slang args str =
    (false, set_exit_code (set_valid (set_slang args m) false) 10,
     [msg_unknown_slang bad]).
Proof.
  intros Hok. rewrite parse_slang_scan.
  assert (H := scan_items_none (split str ":") 0).
  destruct (scan_items 0 _) as [m [bad|]]; simpl in *.
  - now exists m, bad.
  - unfold slang_ok in Hok. rewrite (proj1 H eq_refl) in Hok. discriminate.
Qed.

(** ** [validate] *)

Lemma validate_spec (args : args_t) :
  validate args =
  (set_exit_code (set_valid args (checks_pass args))
     (if checks_pass args then 0 else 10),
   validate_writes args).
Proof.
  unfold validate, checks_pass, validate_writes.
  destruct (is_empty (input args)), (is_empty (output args)),
    (slang args =? 0); reflexivity.
Qed.

(** ** The [switch] *)

Lemma parse_opt_l (args : args_t) (v : string) :
  parse_opt args (chr "l") v =
  let '(ok, args', out) := parse_slang args v in
  if ok then (Continue, args', out) else (Returned, args', out).
Proof. reflexivity. Qed.

Lemma parse_opt_l_ok (args : args_t) (v : string) :
  slang_ok v = true ->
  parse_opt args (chr "l") v = (Continue, set_slang args (slang_of v), []).
Proof. intros H. now rewrite parse_opt_l, parse_slang_ok. Qed.

Lemma parse_opt_h (args : args_t) (v : string) :
  parse_opt args (chr "h") v =
  (Returned, set_exit_code (set_valid args false) 0,
   print_help_string option_list).
Proof. reflexivity. Qed.

(** Whether the [switch] returns depends on the event alone. *)
Lemma parse_opt_flow (args : args_t) (opt : Z) (v : string) :
  fst (fst (parse_opt args opt v))
  = if continues (opt, v) then Continue else Returned.
Proof.
  unfold continues, is_opt, parse_opt. simpl fst. simpl snd.
  switch_on opt; try reflexivity.
  generalize (parse_slang_result args v).
  destruct (parse_slang args v) as [[ok a] w]. simpl. intros <-.
  now destruct ok.
Qed.

(** So do its writes. *)
Lemma parse_opt_writes (args : args_t) (opt : Z) (v : string) :
  snd (parse_opt args opt v) = scan_writes (opt, v).
Proof.
  unfold scan_writes, parse_opt. simpl fst. simpl snd.
  switch_on opt; try reflexivity.
  rewrite !parse_slang_scan.
  destruct (scan_items 0 _) as [m [bad|]]; reflexivity.
Qed.

Lemma parse_opt_input (args : args_t) (opt : Z) (v : string) :
  input (snd (fst (parse_opt args opt v)))
  = if is_opt "i" (opt, v) then v else input args.
Proof.
  unfold is_opt, parse_opt. simpl fst.
  switch_on opt; try reflexivity.
  rewrite parse_slang_scan.
  destruct (scan_items 0 _) as [m [bad|]]; reflexivity.
Qed.

Lemma parse_opt_output (args : args_t) (opt : Z) (v : string) :
  output (snd (fst (parse_opt args opt v)))
  = if is_opt "o" (opt, v) then v else output args.
Proof.
  unfold is_opt, parse_opt. simpl fst.
  switch_on opt; try reflexivity.
  rewrite parse_slang_scan.
  destruct (scan_items 0 _) as [m [bad|]]; reflexivity.
Qed.

Lemma parse_opt_byte_code (args : args_t) (opt : Z) (v : string) :
  byte_code (snd (fst (parse_opt args opt v)))
  = is_opt "b" (opt, v) || byte_code args.
Proof.
  unfold is_opt, parse_opt. simpl fst.
  switch_on opt; try reflexivity.
  rewrite parse_slang_scan.
  destruct (scan_items 0 _) as [m [bad|]]; reflexivity.
Qed.

Lemma parse_opt_debug_dump (args : args_t) (opt : Z) (v : string) :
  debug_dump (snd (fst (parse_opt args opt v)))
  = is_opt "d" (opt, v) || debug_dump args.
Proof.
  unfold is_opt, parse_opt. simpl fst.
  switch_on opt; try reflexivity.
  rewrite parse_slang_scan.
  destruct (scan_items 0 _) as [m [bad|]]; reflexivity.
Qed.

(** [-l] replaces the mask by that of its value, whatever the mask was;
    no other event touches the mask. *)
Lemma parse_opt_slang (args : args_t) (opt : Z) (v : string) :
  slang (snd (fst (parse_opt args opt v)))
  = if is_opt "l" (opt, v) then slang_of v else slang args.
Proof.
  unfold is_opt, parse_opt, slang_of. simpl fst.
  switch_on opt; try reflexivity.
  rewrite !parse_slang_scan.
  destruct (scan_items 0 _) as [m [bad|]]; reflexivity.
Qed.

(** ** The loop *)

Lemma parse_loop_app (pre post : list getopt_event) :
  forall args,
    parse_loop args (pre ++ post) =
    match parse_loop args pre with
    | (Returned, args', out) => (Returned, args', out)
    | (Continue, args', out) =>
        let '(f, args'', out') := parse_loop args' post in
        (f, args'', (out ++ out')%list)
    end.
Proof.
  induction pre as [|[opt v] pre IH]; intros args; simpl.
  - now destruct (parse_loop args post) as [[f a] w].
  - destruct (parse_opt args opt v) as [[[|] a] w]; [|reflexivity].
    rewrite IH.
    destruct (parse_loop a pre) as [[[|] a'] w']; [|reflexivity].
    destruct (parse_loop a' post) as [[f a''] w''].
    now rewrite app_assoc.
Qed.

(** When no event ends the parse the loop runs through all of them. *)
Lemma parse_loop_continues (evs : list getopt_event) :
  forall args,
    forallb continues evs = true ->
    parse_loop args evs
    = (Continue, args_after args evs, flat_map scan_writes evs).
Proof.
  induction evs as [|[opt v] evs IH]; intros args H; simpl in *.
  - reflexivity.
  - apply andb_true_iff in H. destruct H as [Hc H].
    assert (Hf := parse_opt_flow args opt v).
    assert (Hw := parse_opt_writes args opt v).
    rewrite Hc in Hf. unfold args_after. simpl fold_left.
    destruct (parse_opt args opt v) as [[f a] w]. simpl in *. subst f w.
    fold (args_after a evs). now rewrite (IH a H).
Qed.

(** The first event that ends the parse ends the loop: nothing after it is
    looked at. *)
Lemma parse_loop_stops (pre post : list getopt_event) (opt : Z) (v : string) :
  forall args,
    forallb continues pre = true ->
    continues (opt, v) = false ->
    parse_loop args (pre ++ (opt, v) :: post) =
    (Returned,
     snd (fst (parse_opt (args_after args pre) opt v)),
     (flat_map scan_writes pre ++ scan_writes (opt, v))%list).
Proof.
  intros args Hpre Hev.
  rewrite parse_loop_app, (parse_loop_continues pre args Hpre). simpl.
  assert (Hf := parse_opt_flow (args_after args pre) opt v).
  assert (Hw := parse_opt_writes (args_after args pre) opt v).
  rewrite Hev in Hf.
  destruct (parse_opt (args_after args pre) opt v) as [[f a] w].
  simpl in *. now subst f w.
Qed.

(** An event on which the [switch] only writes can be taken out of the
    sequence without changing the structure at the end of the loop. *)
Lemma parse_loop_skip (pre post : list getopt_event) (opt : Z) (v : string) :
  (forall a, fst (parse_opt a opt v) = (Continue, a)) ->
  forall args,
    fst (parse_loop args (pre ++ (opt, v) :: post))
    = fst (parse_loop args (pre ++ post)).
Proof.
  intros Hs args. rewrite !parse_loop_app.
  destruct (parse_loop args pre) as [[[|] a] w]; [|reflexivity].
  simpl. specialize (Hs a).
  destruct (parse_opt a opt v) as [[f a'] w']. simpl in Hs.
  injection Hs as -> ->.
  destruct (parse_loop a post) as [[f a''] w'']. reflexivity.
Qed.

Lemma parse_from_skip (pre post : list getopt_event) (opt : Z) (v : string) :
  (forall a, fst (parse_opt a opt v) = (Continue, a)) ->
  forall args,
    fst (parse_from args (pre ++ (opt, v) :: post))
    = fst (parse_from args (pre ++ post)).
Proof.
  intros Hs args. unfold parse_from.
  assert (H := parse_loop_skip pre post opt v Hs args).
  destruct (parse_loop args (pre ++ (opt, v) :: post)) as [[f a] w].
  destruct (parse_loop args (pre ++ post)) as [[f' a'] w'].
  simpl in H. injection H as -> ->.
  destruct f'; [|reflexivity].
  now rewrite validate_spec.
Qed.

(** The fields after the loop, in terms of the events. *)
Lemma args_after_input (evs : list getopt_event) :
  forall args,
    input (args_after args evs)
    = match last_arg "i" evs with Some v => v | None => input args end.
Proof.
  unfold args_after.
  induction evs as [|[opt v] evs IH]; intros args; simpl; [reflexivity|].
  rewrite IH, parse_opt_input.
  destruct (last_arg "i" evs); [reflexivity|].
  now destruct (is_opt "i" (opt, v)).
Qed.

Lemma args_after_output (evs : list getopt_event) :
  forall args,
    output (args_after args evs)
    = match last_arg "o" evs with Some v => v | None => output args end.
Proof.
  unfold args_after.
  induction evs as [|[opt v] evs IH]; intros args; simpl; [reflexivity|].
  rewrite IH, parse_opt_output.
  destruct (last_arg "o" evs); [reflexivity|].
  now destruct (is_opt "o" (opt, v)).
Qed.

Lemma args_after_slang (evs : list getopt_event) :
  forall args,
    slang (args_after args evs)
    = match last_arg "l" evs with
      | Some v => slang_of v
      | None => slang args
      end.
Proof.
  unfold args_after.
  induction evs as [|[opt v] evs IH]; intros args; simpl; [reflexivity|].
  rewrite IH, parse_opt_slang.
  destruct (last_arg "l" evs); [reflexivity|].
  now destruct (is_opt "l" (opt, v)).
Qed.

Lemma args_after_byte_code (evs : list getopt_event) :
  forall args,
    byte_code (args_after args evs)
    = existsb (is_opt "b") evs || byte_code args.
Proof.
  unfold args_after.
  induction evs as [|[opt v] evs IH]; intros args; simpl; [reflexivity|].
  rewrite IH, parse_opt_byte_code.
  destruct (is_opt "b" (opt, v)), (existsb (is_opt "b") evs);
    reflexivity.
Qed.

Lemma args_after_debug_dump (evs : list getopt_event) :
  forall args,
    debug_dump (args_after args evs)
    = existsb (is_opt "d") evs || debug_dump args.
Proof.
  unfold args_after.
  induction evs as [|[opt v] evs IH]; intros args; simpl; [reflexivity|].
  rewrite IH, parse_opt_debug_dump.
  destruct (is_opt "d" (opt, v)), (existsb (is_opt "d") evs);
    reflexivity.
Qed.

(** A parse that an event ends returns what the loop returns; [validate]
    is not run. *)
Lemma parse_from_stops (pre post : list getopt_event) (opt : Z) (v : string) :
  forall args,
    forallb continues pre = true ->
    continues (opt, v) = false ->
    parse_from args (pre ++ (opt, v) :: post) =
    (snd (fst (parse_opt (args_after args pre) opt v)),
     (flat_map scan_writes pre ++ scan_writes (opt, v))%list).
Proof.
  intros args Hpre Hev. unfold parse_from.
  now rewrite (parse_loop_stops pre post opt v args Hpre Hev).
Qed.

(** A parse that no event ends: the loop, then the three checks. *)
Lemma parse_from_continues (evs : list getopt_event) (args : args_t) :
  forallb continues evs = true ->
  parse_from args evs =
  (set_exit_code (set_valid (args_after args evs)
                    (checks_pass (args_after args evs)))
     (if checks_pass (args_after args evs) then 0 else 10),
   (flat_map scan_writes evs ++ validate_writes (args_after args evs))%list).
Proof.
  intros H. unfold parse_from.
  now rewrite (parse_loop_continues evs args H), validate_spec.
Qed.

(** * The claims *)

(** The option table is accepted, so [args_t::parse] is the loop and the
    validator on the events of the argument list: what is proved below for
    every sequence of events holds for every argument list. *)
Lemma parse_unfold (argv : list string) :
  parse argv = parse_events (getopt_events option_list argv).
Proof. reflexivity. Qed.

Example getopt_events_run :
  getopt_events option_list
    ["-i"; "shd.glsl"; "stray"; "-x"; "--bytecode"; "-d"; "-l"]
  = [(chr "i", "shd.glsl"); (chr "+", "stray"); (chr "?", "-x");
     (chr "b", ""); (chr "d", ""); (chr "!", "slang")].
Proof. reflexivity. Qed.

Lemma slang_of_to_str (L : slang_t.type_t) :
  slang_ok (slang_t.to_str L) = true /\
  slang_of (slang_t.to_str L) = slang_t.bit L /\
  mask_members (slang_t.bit L) = [L].
Proof. destruct L; repeat split; reflexivity. Qed.

(** C1.  An argument list that gives [-i] and [-o] a (non-empty) path and
    [-l] the name of one known language, and in which nothing ends the parse
    early (no help flag, no [-l] value that fails to parse), is parsed to
    [valid = true], [exit_code = 0], [input] and [output] the paths given
    and [slang] exactly the bit of that language; the validator writes
    nothing.  The argument list is taken as the events [getopt_next]
    delivers for it; where a flag is repeated its last value counts. *)
Theorem C1_single_known_language
        (evs : list getopt_event) (inp out : string) (L : slang_t.type_t) :
  forallb continues evs = true ->
  last_arg "i" evs = Some inp -> inp <> EmptyString ->
  last_arg "o" evs = Some out -> out <> EmptyString ->
  last_arg "l" evs = Some (slang_t.to_str L) ->
  let r := fst (parse_events evs) in
  valid r = true /\ exit_code r = 0 /\
  input r = inp /\ output r = out /\
  slang r = slang_t.bit L /\ mask_members (slang r) = [L] /\
  snd (parse_events evs) = flat_map scan_writes evs.
Proof.
  intros Hc Hi Hin Ho Hon Hl. unfold parse_events.
  rewrite (parse_from_continues evs args_default Hc).
  set (a := args_after args_default evs).
  assert (Ei : input a = inp)
    by (unfold a; now rewrite args_after_input, Hi).
  assert (Eo : output a = out)
    by (unfold a; now rewrite args_after_output, Ho).
  destruct (slang_of_to_str L) as [_ [Eb Em]].
  assert (El : slang a = slang_t.bit L)
    by (unfold a; now rewrite args_after_slang, Hl).
  assert (Ep : checks_pass a = true).
  { unfold checks_pass. rewrite Ei, Eo, El.
    destruct inp; [contradiction|]. destruct out; [contradiction|].
    destruct L; reflexivity. }
  simpl. rewrite Ep. simpl.
  repeat split; try assumption.
  - now rewrite El.
  - unfold validate_writes. rewrite Ei, Eo, El.
    destruct inp; [contradiction|]. destruct out; [contradiction|].
    destruct L; simpl; now rewrite app_nil_r.
Qed.

Lemma C1_witness :
  let r := fst (parse ["-i"; "shd.glsl"; "-o"; "shd.h"; "-l"; "hlsl5"]) in
  valid r = true /\ exit_code r = 0 /\
  input r = "shd.glsl" /\ output r = "shd.h" /\
  slang r = slang_t.bit slang_t.HLSL5 /\
  mask_members (slang r) = [slang_t.HLSL5] /\
  snd (parse ["-i"; "shd.glsl"; "-o"; "shd.h"; "-l"; "hlsl5"]) = [].
Proof.
  apply (C1_single_known_language
           (getopt_events option_list
              ["-i"; "shd.glsl"; "-o"; "shd.h"; "-l"; "hlsl5"])
           "shd.glsl" "shd.h" slang_t.HLSL5);
    solve [reflexivity | discriminate].
Defined.

(** C2.  When the scan ends without help and without a slang error, the
    validator runs once on the structure the loop leaves.  Each of its three
    checks is evaluated, whatever the others give; each failing check writes
    its own message, after the messages of the scan and in the order input,
    output, slang; [valid] and [exit_code] become [false] and [10] if a
    check fails and [true] and [0] if none does, and no other field
    changes.  In particular the empty argument list fails with all three
    messages. *)
Theorem C2_validator_aggregates :
  (forall evs : list getopt_event,
      forallb continues evs = true ->
      let a := args_after args_default evs in
      let r := parse_events evs in
      let pass := negb (is_empty (input a)) && negb (is_empty (output a))
                  && negb (slang a =? 0) in
      fst r = set_exit_code (set_valid a pass) (if pass then 0 else 10) /\
      snd r =
        (flat_map scan_writes evs ++
         (if is_empty (input a) then [msg_no_input] else []) ++
         (if is_empty (output a) then [msg_no_output] else []) ++
         (if slang a =? 0 then [msg_no_slang] else []))%list /\
      (valid (fst r) = true /\ exit_code (fst r) = 0 <->
       input a <> EmptyString /\ output a <> EmptyString /\ slang a <> 0) /\
      (valid (fst r) = false /\ exit_code (fst r) = 10 <->
       input a = EmptyString \/ output a = EmptyString \/ slang a = 0)) /\
  parse [] =
    (set_exit_code (set_valid args_default false) 10,
     [msg_no_input; msg_no_output; msg_no_slang]).
Proof.
  split; [|reflexivity].
  intros evs Hc a r pass. unfold r, parse_events.
  rewrite (parse_from_continues evs args_default Hc).
  fold a. change (checks_pass a) with pass.
  split; [reflexivity|]. split; [reflexivity|].
  unfold pass. simpl fst.
  destruct (input a) as [|c1 s1], (output a) as [|c2 s2];
    destruct (Z.eqb_spec (slang a) 0) as [E|E]; simpl;
    (split; split; intros H;
     try (destruct H as [H1 H2]; discriminate);
     try (split; reflexivity);
     try (destruct H as [H|[H|H]]; discriminate || contradiction);
     try (destruct H as [H1 [H2 H3]]; congruence);
     try (repeat split; congruence);
     auto).
Qed.

Lemma C2_witness :
  parse_events [(chr "i", "shd.glsl"); (chr "+", "stray")] =
    ({| valid := false; exit_code := 10; input := "shd.glsl"; output := "";
        slang := 0; byte_code := false; debug_dump := false |},
     [Emit ("got argument without flag: stray" ++ nl);
      msg_no_output; msg_no_slang]).
Proof.
  destruct C2_validator_aggregates as [H _].
  specialize (H [(chr "i", "shd.glsl"); (chr "+", "stray")] eq_refl).
  destruct H as [H1 [H2 _]].
  apply injective_projections; [exact H1 | exact H2].
Defined.

Lemma continues_l (str : string) :
  continues (chr "l", str) = slang_ok str.
Proof. reflexivity. Qed.

(** C3.  [parse_slang] stops at the first piece that is no language name:
    it writes the one message naming that piece, sets [valid = false] and
    [exit_code = 10] and returns [false]; the pieces after it are never
    matched (the result is the same whatever they are), and the bits of the
    pieces matched before it stay in the mask.  [args_t::parse] returns at
    once on that result: later events and the validator are not run.  For
    the value "glsl330:bogus:hlsl5" the mask is the bit of glsl330 alone. *)
Theorem C3_slang_fail_fast :
  (forall (args : args_t) (str : string) (pre : list slang_t.type_t)
          (bad : string) (post : list string),
      split str ":" = (map slang_t.to_str pre ++ bad :: post)%list ->
      find_slang bad = None ->
      parse_slang args str =
        (false,
         set_exit_code (set_valid (set_slang args (mask_of pre)) false) 10,
         [msg_unknown_slang bad])) /\
  (forall (pre rest : list getopt_event) (str : string),
      forallb continues pre = true ->
      slang_ok str = false ->
      let r := parse_events (pre ++ (chr "l", str) :: rest) in
      r = parse_events (pre ++ [(chr "l", str)]) /\
      valid (fst r) = false /\ exit_code (fst r) = 10 /\
      slang (fst r) = slang_of str /\
      snd r = (flat_map scan_writes pre ++ scan_writes (chr "l", str))%list) /\
  (let r := parse ["-l"; "glsl330:bogus:hlsl5"] in
   valid (fst r) = false /\ exit_code (fst r) = 10 /\
   slang (fst r) = slang_t.bit slang_t.GLSL330 /\
   Z.land (slang (fst r)) (slang_t.bit slang_t.HLSL5) = 0 /\
   snd r = [msg_unknown_slang "bogus"]).
Proof.
  split; [|split].
  - intros args str pre bad post Hs Hb.
    rewrite parse_slang_scan, Hs, (scan_items_stop pre bad post Hb).
    reflexivity.
  - intros pre rest str Hpre Hbad r.
    assert (Hc : continues (chr "l", str) = false)
      by now rewrite continues_l.
    assert (Er := parse_from_stops pre rest (chr "l") str args_default
                    Hpre Hc).
    assert (Er' := parse_from_stops pre [] (chr "l") str args_default
                     Hpre Hc).
    fold (parse_events (pre ++ (chr "l", str) :: rest)) in Er.
    change (parse_events (pre ++ (chr "l", str) :: rest)) with r in Er.
    split; [exact (eq_trans Er (eq_sym Er'))|].
    rewrite Er. simpl fst. simpl snd.
    rewrite parse_opt_slang.
    destruct (parse_slang_fail (args_after args_default pre) str Hbad)
      as [m [bad [_ E]]].
    rewrite parse_opt_l, E. repeat split.
  - repeat split.
Qed.

Lemma C3_witness :
  parse_slang args_default "glsl330:bogus:hlsl5" =
    (false,
     {| valid := false; exit_code := 10; input := ""; output := "";
        slang := slang_t.bit slang_t.GLSL330;
        byte_code := false; debug_dump := false |},
     [msg_unknown_slang "bogus"]).
Proof.
  exact (proj1 C3_slang_fail_fast args_default "glsl330:bogus:hlsl5"
           [slang_t.GLSL330] "bogus" ["hlsl5"] eq_refl eq_refl).
Defined.

(** The loop never writes one of the validator's messages. *)
Lemma scan_writes_not_validation (ev : getopt_event) (w : stderr_write) :
  In w (scan_writes ev) ->
  w <> msg_no_input /\ w <> msg_no_output /\ w <> msg_no_slang.
Proof.
  destruct ev as [opt v]. unfold scan_writes, parse_opt. simpl fst. simpl snd.
  switch_on opt; simpl;
    try (intros [<-|[]]; repeat split; discriminate);
    try (intros [<-|[<-|[]]]; repeat split; discriminate);
    try contradiction.
  rewrite parse_slang_scan.
  destruct (scan_items 0 _) as [m [bad|]]; simpl; [|contradiction].
  intros [<-|[]]. repeat split; discriminate.
Qed.

Lemma flat_scan_writes_not_validation (evs : list getopt_event)
      (w : stderr_write) :
  In w (flat_map scan_writes evs) ->
  w <> msg_no_input /\ w <> msg_no_output /\ w <> msg_no_slang.
Proof.
  rewrite in_flat_map. intros [ev [_ H]].
  exact (scan_writes_not_validation ev w H).
Qed.

(** C4, as the code has it.  When the scan reaches the help flag, that is
    when no earlier event has ended the parse (no earlier [-l] whose value
    fails to parse), [args_t::parse] writes the help text and returns with
    [valid = false] and [exit_code = 0], whatever follows the flag; the
    validator is not run, and none of its messages is written. *)
Theorem C4_help_when_reached
        (pre post : list getopt_event) (v : string) :
  forallb continues pre = true ->
  let r := parse_events (pre ++ (chr "h", v) :: post) in
  fst r = set_exit_code (set_valid (args_after args_default pre) false) 0 /\
  valid (fst r) = false /\ exit_code (fst r) = 0 /\
  snd r = (flat_map scan_writes pre ++ print_help_string option_list)%list /\
  ~ In msg_no_input (snd r) /\ ~ In msg_no_output (snd r) /\
  ~ In msg_no_slang (snd r).
Proof.
  intros Hpre r.
  assert (Er := parse_from_stops pre post (chr "h") v args_default
                  Hpre eq_refl).
  fold (parse_events (pre ++ (chr "h", v) :: post)) in Er.
  change (parse_events (pre ++ (chr "h", v) :: post)) with r in Er.
  rewrite Er.
  change (scan_writes (chr "h", v)) with (print_help_string option_list).
  rewrite parse_opt_h. simpl fst. simpl snd.
  repeat split; intros H; apply in_app_or in H; destruct H as [H|H];
    try (apply flat_scan_writes_not_validation in H;
         destruct H as [H1 [H2 H3]]; congruence);
    destruct H as [H|[H|[]]]; discriminate.
Qed.

Lemma C4_witness :
  let r := parse ["-x"; "-i"; "shd.glsl"; "-h"; "-l"; "bogus"] in
  fst r = {| valid := false; exit_code := 0; input := "shd.glsl";
             output := ""; slang := 0; byte_code := false;
             debug_dump := false |} /\
  valid (fst r) = false /\ exit_code (fst r) = 0 /\
  snd r = [Emit ("unknown flag -x" ++ nl);
           Emit help_preamble; EmitOptionsHelp option_list] /\
  ~ In msg_no_input (snd r) /\ ~ In msg_no_output (snd r) /\
  ~ In msg_no_slang (snd r).
Proof.
  exact (C4_help_when_reached
           [(chr "?", "-x"); (chr "i", "shd.glsl")]
           [(chr "l", "bogus")] "" eq_refl).
Defined.

(** C4 as stated fails: the argument list [-l bogus -h] contains the help
    flag, but the parse returns at the unknown language with
    [exit_code = 10], and the help text is never written. *)
Lemma C4_counterexample :
  In "-h" ["-l"; "bogus"; "-h"] /\
  getopt_events option_list ["-l"; "bogus"; "-h"]
    = [(chr "l", "bogus"); (chr "h", "")] /\
  parse ["-l"; "bogus"; "-h"] =
    ({| valid := false; exit_code := 10; input := ""; output := "";
        slang := 0; byte_code := false; debug_dump := false |},
     [msg_unknown_slang "bogus"]) /\
  exit_code (fst (parse ["-l"; "bogus"; "-h"])) <> 0 /\
  ~ In (Emit help_preamble) (snd (parse ["-l"; "bogus"; "-h"])).
Proof.
  repeat split.
  - simpl. tauto.
  - discriminate.
  - intros [H|[]]. discriminate.
Qed.

Lemma names_no_colon (ls : list slang_t.type_t) :
  forallb (fun s => negb (has_char ":" s)) (map slang_t.to_str ls) = true.
Proof.
  induction ls as [|c ls IH]; simpl; [reflexivity|].
  now rewrite to_str_no_colon, IH.
Qed.

(** The mask of a list depends on its members only, not on their order or
    on repeats. *)
Lemma mask_of_ext (ls ls' : list slang_t.type_t) :
  (forall c, In c ls' <-> In c ls) -> mask_of ls' = mask_of ls.
Proof.
  intros H. apply Z.bits_inj'. intros i _. unfold mask_of.
  rewrite !fold_lor_testbit, Z.bits_0. simpl.
  apply eq_true_iff_eq. rewrite !existsb_exists.
  split; intros [x [Hx E]]; exists x; (split; [apply H, Hx | exact E]).
Qed.

(** C5.  For a non-empty list of languages, in any order and with repeats
    allowed, [parse_slang] on their canonical names joined with a colon
    succeeds, writes nothing, and leaves the OR of their bits; the languages
    whose bit is set in that mask are exactly the members of the list, and
    the mask is the same for every list with the same members. *)
Theorem C5_slang_round_trip (args : args_t) (ls : list slang_t.type_t) :
  ls <> [] ->
  parse_slang args (join ":" (map slang_t.to_str ls))
    = (true, set_slang args (mask_of ls), []) /\
  (forall c, In c (mask_members (mask_of ls)) <-> In c ls) /\
  (forall ls', (forall c, In c ls' <-> In c ls) -> mask_of ls' = mask_of ls).
Proof.
  intros Hne.
  split; [|split; [intros c; apply mask_members_mask_of
                  |intros ls' H; now apply mask_of_ext]].
  destruct ls as [|c ls]; [contradiction|].
  rewrite parse_slang_scan.
  change (map slang_t.to_str (c :: ls))
    with (slang_t.to_str c :: map slang_t.to_str ls).
  rewrite split_join by apply (names_no_colon (c :: ls)).
  change (slang_t.to_str c :: map slang_t.to_str ls)
    with (map slang_t.to_str (c :: ls)).
  now rewrite scan_items_names.
Qed.

Lemma C5_witness :
  parse_slang args_default "metal_ios:glsl330:metal_ios"
    = (true, set_slang args_default 33, []) /\
  (forall c,
      In c (mask_members 33) <-> In c [slang_t.METAL_IOS; slang_t.GLSL330;
                                       slang_t.METAL_IOS]) /\
  (forall ls',
      (forall c, In c ls' <-> In c [slang_t.METAL_IOS; slang_t.GLSL330;
                                    slang_t.METAL_IOS]) ->
      mask_of ls' = 33).
Proof.
  apply (C5_slang_round_trip args_default
           [slang_t.METAL_IOS; slang_t.GLSL330; slang_t.METAL_IOS]).
  discriminate.
Defined.

(** C6.  An unknown flag and an invalid use of a flag each write one
    message and change nothing in the structure; the loop goes on with the
    next event, and neither ends the parse.  The structure returned, and
    with it the verdict in [valid] and [exit_code], is the one the same
    argument list gives without them; when nothing else ends the parse it
    is the verdict of the validator on what the other events have set. *)
Theorem C6_unknown_flags_non_fatal :
  (forall (args : args_t) (t : string),
      parse_opt args (chr "?") t
      = (Continue, args, [Emit ("unknown flag " ++ t ++ nl)])) /\
  (forall (args : args_t) (t : string),
      parse_opt args (chr "!") t
      = (Continue, args, [Emit ("invalid use of flag " ++ t ++ nl)])) /\
  (forall (args : args_t) (t : string) (rest : list getopt_event),
      parse_loop args ((chr "?", t) :: rest)
      = (fst (fst (parse_loop args rest)), snd (fst (parse_loop args rest)),
         Emit ("unknown flag " ++ t ++ nl) :: snd (parse_loop args rest))) /\
  (forall (args : args_t) (t : string) (rest : list getopt_event),
      parse_loop args ((chr "!", t) :: rest)
      = (fst (fst (parse_loop args rest)), snd (fst (parse_loop args rest)),
         Emit ("invalid use of flag " ++ t ++ nl)
           :: snd (parse_loop args rest))) /\
  (forall (pre post : list getopt_event) (t : string),
      fst (parse_events (pre ++ (chr "?", t) :: post))
      = fst (parse_events (pre ++ post))) /\
  (forall (pre post : list getopt_event) (t : string),
      fst (parse_events (pre ++ (chr "!", t) :: post))
      = fst (parse_events (pre ++ post))) /\
  (forall (pre post : list getopt_event) (t : string) (c : ascii),
      c = "?"%char \/ c = "!"%char ->
      forallb continues (pre ++ post) = true ->
      fst (parse_events (pre ++ (chr c, t) :: post))
      = fst (validate (args_after args_default (pre ++ post)))).
Proof.
  assert (Hq : forall (pre post : list getopt_event) (t : string),
             fst (parse_events (pre ++ (chr "?", t) :: post))
             = fst (parse_events (pre ++ post))).
  { intros pre post t.
    exact (parse_from_skip pre post (chr "?") t (fun a => eq_refl)
             args_default). }
  assert (Hb : forall (pre post : list getopt_event) (t : string),
             fst (parse_events (pre ++ (chr "!", t) :: post))
             = fst (parse_events (pre ++ post))).
  { intros pre post t.
    exact (parse_from_skip pre post (chr "!") t (fun a => eq_refl)
             args_default). }
  repeat split; try reflexivity; try assumption.
  - intros args t rest. simpl.
    now destruct (parse_loop args rest) as [[f a] w].
  - intros args t rest. simpl.
    now destruct (parse_loop args rest) as [[f a] w].
  - intros pre post t c Hc Hall.
    assert (E : fst (parse_events (pre ++ (chr c, t) :: post))
                = fst (parse_events (pre ++ post)))
      by (destruct Hc as [-> | ->]; [apply Hq | apply Hb]).
    rewrite E. unfold parse_events.
    now rewrite (parse_from_continues (pre ++ post) args_default Hall),
      validate_spec.
Qed.

Lemma C6_witness :
  fst (parse ["-i"; "shd.glsl"; "-x"; "-o"; "shd.h"; "-l"; "glsl100"; "-l"])
  = {| valid := true; exit_code := 0; input := "shd.glsl";
       output := "shd.h"; slang := slang_t.bit slang_t.GLSL100;
       byte_code := false; debug_dump := false |} /\
  fst (parse ["-i"; "shd.glsl"; "-x"; "-o"; "shd.h"; "-l"; "glsl100"; "-l"])
  = fst (parse ["-i"; "shd.glsl"; "-o"; "shd.h"; "-l"; "glsl100"]).
Proof.
  destruct C6_unknown_flags_non_fatal as [_ [_ [_ [_ [_ [_ H]]]]]].
  split.
  - exact (H [(chr "i", "shd.glsl")]
             [(chr "o", "shd.h"); (chr "l", "glsl100"); (chr "!", "slang")]
             "-x" "?"%char (or_introl eq_refl) eq_refl).
  - reflexivity.
Defined.

(** C7, as the code has it.  [parse_slang] matches every piece [split]
    yields, the empty ones too; the empty text is no language name.  It
    returns [true] exactly when every piece is a canonical name, and reports
    an unknown language exactly when some piece, empty or not, is none. *)
Theorem C7_every_piece_matched (args : args_t) (str : string) :
  fst (fst (parse_slang args str)) = forallb known (split str ":") /\
  (fst (fst (parse_slang args str)) = false <->
   exists item, In item (split str ":") /\
                forall c, item <> slang_t.to_str c) /\
  (fst (fst (parse_slang args str)) = false <->
   exists bad, snd (parse_slang args str) = [msg_unknown_slang bad] /\
               In bad (split str ":") /\ find_slang bad = None) /\
  find_slang EmptyString = None.
Proof.
  assert (R := parse_slang_result args str). unfold slang_ok in R.
  split; [exact R|]. split; [|split; [|reflexivity]].
  - rewrite R. split.
    + intros H.
      assert (N : ~ forallb known (split str ":") = true) by congruence.
      rewrite forallb_forall in N.
      destruct (existsb (fun i => negb (known i)) (split str ":")) eqn:E.
      * apply existsb_exists in E. destruct E as [item [Hin Hk]].
        exists item. split; [exact Hin|]. intros c ->.
        unfold known in Hk. now rewrite find_slang_to_str in Hk.
      * exfalso. apply N. intros item Hin.
        destruct (known item) eqn:K; [reflexivity|].
        assert (T : existsb (fun i => negb (known i)) (split str ":")
                    = true).
        { apply existsb_exists. exists item. now rewrite K. }
        congruence.
    + intros [item [Hin Hno]].
      apply not_true_is_false. intros T.
      rewrite forallb_forall in T. specialize (T item Hin).
      apply known_iff in T. destruct T as [c ->]. now apply (Hno c).
  - split.
    + rewrite R. intros H. fold (slang_ok str) in H.
      destruct (parse_slang_fail args str H) as [m [bad [Hs E]]].
      exists bad. rewrite E. split; [reflexivity|].
      clear E H R. revert Hs. generalize 0 as m0.
      induction (split str ":") as [|item rest IH]; intros m0 Hs; simpl in *.
      * discriminate.
      * destruct (find_slang item) as [c|] eqn:F.
        -- destruct (IH _ Hs) as [Hin Hf]. split; [now right | exact Hf].
        -- injection Hs as _ <-. split; [now left | exact F].
    + intros [bad [Hw _]]. rewrite parse_slang_scan in *.
      destruct (scan_items 0 _) as [m [b|]]; simpl in *;
        [reflexivity | discriminate].
Qed.

(** C7 as stated fails: the only non-empty piece of "glsl330:" is a known
    language name, yet the empty piece after the colon is matched too and
    reported as an unknown language. *)
Lemma C7_counterexample :
  split "glsl330:" ":" = ["glsl330"; ""] /\
  forallb known
    (filter (fun s => negb (is_empty s)) (split "glsl330:" ":")) = true /\
  parse_slang args_default "glsl330:" =
    (false,
     {| valid := false; exit_code := 10; input := ""; output := "";
        slang := slang_t.bit slang_t.GLSL330;
        byte_code := false; debug_dump := false |},
     [Emit ("error: unknown shader language ''" ++ nl)]) /\
  parse_slang_items args_default ["glsl330"; ""] =
    (false,
     {| valid := false; exit_code := 10; input := ""; output := "";
        slang := slang_t.bit slang_t.GLSL330;
        byte_code := false; debug_dump := false |},
     [Emit ("error: unknown shader language ''" ++ nl)]).
Proof. repeat split. Qed.

(** ** The stream passed through: what a call reads and writes *)








Lemma parse_loop_keeps_slang (evs : list getopt_event) :
  forall args,
    forallb (fun ev => negb (is_opt "l" ev)) evs = true ->
    slang (snd (fst (parse_loop args evs))) = slang args.
Proof.
  induction evs as [|[opt v] evs IH]; intros args H; simpl in *.
  - reflexivity.
  - apply andb_true_iff in H. destruct H as [Hl H].
    assert (Hs := parse_opt_slang args opt v).
    apply negb_true_iff in Hl. rewrite Hl in Hs.
    destruct (parse_opt args opt v) as [[[|] a] w]; simpl in *.
    + specialize (IH a H).
      destruct (parse_loop a evs) as [[f a'] w']. simpl in *. congruence.
    + exact Hs.
Qed.

Lemma parse_from_slang (evs : list getopt_event) (args : args_t) :
  slang (fst (parse_from args evs)) = slang (snd (fst (parse_loop args evs))).
Proof.
  unfold parse_from.
  destruct (parse_loop args evs) as [[[|] a] w]; [|reflexivity].
  now rewrite validate_spec.
Qed.

(** C9, as the code has it.  [parse_slang] starts from the zero mask, so
    the mask it leaves is that of its text alone, whatever the mask was
    before.  Hence, when every [-l] value of an argument list parses
    successfully and the loop reaches the last [-l] (no help flag comes
    before it), the mask returned is that of the last [-l] value, not the
    union over the occurrences. *)
Theorem C9_last_slang_wins
        (pre post : list getopt_event) (v : string) :
  forallb continues pre = true ->
  slang_ok v = true ->
  forallb (fun ev => negb (is_opt "l" ev)) post = true ->
  slang (fst (parse_events (pre ++ (chr "l", v) :: post))) = slang_of v /\
  (forall args, slang (snd (fst (parse_slang args v))) = slang_of v) /\
  slang_of v = fst (scan_items 0 (split v ":")).
Proof.
  intros Hpre Hv Hpost. split; [|split].
  - unfold parse_events. rewrite parse_from_slang, parse_loop_app.
    rewrite (parse_loop_continues pre args_default Hpre).
    assert (K := parse_loop_keeps_slang post
                   (set_slang (args_after args_default pre) (slang_of v))
                   Hpost).
    change (parse_loop (args_after args_default pre) ((chr "l", v) :: post))
      with (match parse_opt (args_after args_default pre) (chr "l") v with
            | (Returned, args', out) => (Returned, args', out)
            | (Continue, args', out) =>
                let '(f, args'', out') := parse_loop args' post in
                (f, args'', (out ++ out')%list)
            end).
    rewrite (parse_opt_l_ok _ v Hv).
    destruct (parse_loop _ post) as [[f a] w]. exact K.
  - intros args. now rewrite (parse_slang_ok args v Hv).
  - unfold slang_of. rewrite parse_slang_scan.
    now destruct (scan_items 0 _) as [m [bad|]].
Qed.

Lemma C9_witness :
  slang (fst (parse ["-l"; "glsl330:glsl100"; "-o"; "shd.h"; "-l"; "hlsl5";
                     "-i"; "shd.glsl"]))
  = slang_t.bit slang_t.HLSL5.
Proof.
  exact (proj1 (C9_last_slang_wins
                  [(chr "l", "glsl330:glsl100"); (chr "o", "shd.h")]
                  [(chr "i", "shd.glsl")] "hlsl5"
                  eq_refl eq_refl eq_refl)).
Defined.

(** C9 as stated fails: in [-l glsl330 -h -l hlsl5] both [-l] values parse
    successfully, but the parse returns at the help flag, so the mask
    returned is that of the first [-l], not of the last. *)
Lemma C9_counterexample :
  getopt_events option_list ["-l"; "glsl330"; "-h"; "-l"; "hlsl5"]
    = [(chr "l", "glsl330"); (chr "h", ""); (chr "l", "hlsl5")] /\
  slang_ok "glsl330" = true /\ slang_ok "hlsl5" = true /\
  last_arg "l"
    (getopt_events option_list ["-l"; "glsl330"; "-h"; "-l"; "hlsl5"])
    = Some "hlsl5" /\
  slang_of "hlsl5" = slang_t.bit slang_t.HLSL5 /\
  slang (fst (parse ["-l"; "glsl330"; "-h"; "-l"; "hlsl5"]))
    = slang_t.bit slang_t.GLSL330 /\
  slang (fst (parse ["-l"; "glsl330"; "-h"; "-l"; "hlsl5"]))
    <> slang_of "hlsl5".
Proof. repeat split. discriminate. Qed.

(** C10.  On a stray positional token the [switch] writes one message and
    leaves every field of the structure as it was; the loop goes on, and
    the structure returned is the one the argument list gives without the
    token. *)
Theorem C10_stray_token_frame :
  (forall (args : args_t) (t : string),
      parse_opt args (chr "+") t
      = (Continue, args,
         [Emit ("got argument without flag: " ++ t ++ nl)])) /\
  (forall (args : args_t) (t : string),
      let args' := snd (fst (parse_opt args (chr "+") t)) in
      input args' = input args /\ output args' = output args /\
      slang args' = slang args /\ byte_code args' = byte_code args /\
      debug_dump args' = debug_dump args /\ valid args' = valid args /\
      exit_code args' = exit_code args) /\
  (forall (pre post : list getopt_event) (t : string),
      fst (parse_events (pre ++ (chr "+", t) :: post))
      = fst (parse_events (pre ++ post))).
Proof.
  repeat split.
  intros pre post t.
  exact (parse_from_skip pre post (chr "+") t (fun a => eq_refl)
           args_default).
Qed.

(** ** The initial values of [valid] and [exit_code] *)

Lemma parse_opt_reinit (args : args_t) (opt : Z) (s : string)
      (v : bool) (e : Z) :
  parse_opt (set_exit_code (set_valid args v) e) opt s =
  match parse_opt args opt s with
  | (Continue, args', out) =>
      (Continue, set_exit_code (set_valid args' v) e, out)
  | (Returned, args', out) => (Returned, args', out)
  end.
Proof.
  unfold parse_opt. switch_on opt; try reflexivity.
  rewrite !parse_slang_scan.
  destruct (scan_items 0 _) as [m [bad|]]; reflexivity.
Qed.

Lemma parse_loop_reinit (evs : list getopt_event) :
  forall (args : args_t) (v : bool) (e : Z),
    parse_loop (set_exit_code (set_valid args v) e) evs =
    match parse_loop args evs with
    | (Continue, args', out) =>
        (Continue, set_exit_code (set_valid args' v) e, out)
    | (Returned, args', out) => (Returned, args', out)
    end.
Proof.
  induction evs as [|[opt s] evs IH]; intros args v e; simpl.
  - reflexivity.
  - rewrite parse_opt_reinit.
    destruct (parse_opt args opt s) as [[[|] a] w]; [|reflexivity].
    rewrite IH.
    destruct (parse_loop a evs) as [[[|] a'] w']; reflexivity.
Qed.

(** Every path through [args_t::parse] assigns [valid] and [exit_code]:
    what they hold when the structure is created does not show in the
    result. *)
Lemma parse_from_init_irrelevant (evs : list getopt_event) (args : args_t)
      (v : bool) (e : Z) :
  parse_from (set_exit_code (set_valid args v) e) evs = parse_from args evs.
Proof.
  unfold parse_from. rewrite parse_loop_reinit.
  destruct (parse_loop args evs) as [[[|] a] w]; [|reflexivity].
  now rewrite !validate_spec.
Qed.

(** * Further properties of the parser *)

(** ** Where the loop ends *)

Lemma first_stop_none (evs : list getopt_event) :
  first_stop evs = None -> forallb continues evs = true.
Proof.
  unfold first_stop. induction evs as [|ev evs IH]; simpl; [reflexivity|].
  destruct (continues ev); simpl; [exact IH | discriminate].
Qed.

Lemma first_stop_some (evs : list getopt_event) (ev : getopt_event) :
  first_stop evs = Some ev ->
  exists pre post,
    evs = (pre ++ ev :: post)%list /\
    forallb continues pre = true /\ continues ev = false.
Proof.
  unfold first_stop. induction evs as [|e evs IH]; simpl; [discriminate|].
  destruct (continues e) eqn:E; simpl.
  - intros H. destruct (IH H) as [pre [post [-> [Hp Hc]]]].
    exists (e :: pre), post. simpl. now rewrite E, Hp.
  - intros H. injection H as <-. now exists [], evs.
Qed.

(** The two events that end the parse. *)
Lemma stop_cases (opt : Z) (v : string) :
  continues (opt, v) = false ->
  opt = chr "h" \/ (opt = chr "l" /\ slang_ok v = false).
Proof.
  unfold continues, is_opt. simpl fst. simpl snd.
  destruct (Z.eqb_spec opt (chr "h")) as [->|_]; [now left|].
  destruct (Z.eqb_spec opt (chr "l")) as [->|_]; simpl.
  - intros H. now right.
  - discriminate.
Qed.

(** The three ways [args_t::parse] ends, with what it returns in each. *)
Lemma parse_events_outcome (evs : list getopt_event) :
  (first_stop evs = None /\
   forallb continues evs = true /\
   parse_events evs =
     (set_exit_code (set_valid (args_after args_default evs)
                       (checks_pass (args_after args_default evs)))
        (if checks_pass (args_after args_default evs) then 0 else 10),
      (flat_map scan_writes evs
       ++ validate_writes (args_after args_default evs))%list)) \/
  (exists pre post v,
      first_stop evs = Some (chr "h", v) /\
      evs = (pre ++ (chr "h", v) :: post)%list /\
      forallb continues pre = true /\
      parse_events evs =
        (set_exit_code (set_valid (args_after args_default pre) false) 0,
         (flat_map scan_writes pre ++ print_help_string option_list)%list)) \/
  (exists pre post v m bad,
      first_stop evs = Some (chr "l", v) /\
      evs = (pre ++ (chr "l", v) :: post)%list /\
      forallb continues pre = true /\
      scan_items 0 (split v ":") = (m, Some bad) /\
      parse_events evs =
        (set_exit_code
           (set_valid (set_slang (args_after args_default pre) m) false) 10,
         (flat_map scan_writes pre ++ [msg_unknown_slang bad])%list)).
Proof.
  destruct (first_stop evs) as [[opt v]|] eqn:F.
  - right.
    destruct (first_stop_some evs (opt, v) F) as [pre [post [E [Hp Hc]]]].
    assert (R := parse_from_stops pre post opt v args_default Hp Hc).
    fold (parse_events (pre ++ (opt, v) :: post)) in R.
    destruct (stop_cases opt v Hc) as [->|[-> Hv]].
    + left. exists pre, post, v. repeat split; try assumption.
      rewrite E. exact R.
    + right.
      destruct (parse_slang_fail (args_after args_default pre) v Hv)
        as [m [bad [Hs P]]].
      exists pre, post, v, m, bad. repeat split; try assumption.
      rewrite E. etransitivity; [exact R|].
      unfold scan_writes. simpl fst. simpl snd.
      rewrite !parse_opt_l, P.
      destruct (parse_slang_fail args_default v Hv) as [m' [bad' [Hs' P']]].
      rewrite P'. rewrite Hs in Hs'. injection Hs' as <- <-. reflexivity.
  - left. assert (H := first_stop_none evs F). repeat split; [exact H|].
    exact (parse_from_continues evs args_default H).
Qed.

(** ** Masks the parser can leave *)

Lemma scan_items_keeps_bits (items : list string) :
  forall (m i : Z),
    Z.testbit m i = true -> Z.testbit (fst (scan_items m items)) i = true.
Proof.
  induction items as [|item rest IH]; intros m i H; simpl; [exact H|].
  destruct (find_slang item) as [c|]; [|exact H].
  apply IH. rewrite Z.lor_spec, H. reflexivity.
Qed.

(** A loop that ran to the end over at least one piece has set a bit. *)
Lemma scan_items_nonzero (items : list string) (m m' : Z) :
  items <> [] -> scan_items m items = (m', None) -> m' <> 0.
Proof.
  destruct items as [|item rest]; [contradiction|]. intros _. simpl.
  destruct (find_slang item) as [c|]; [|discriminate].
  intros H E.
  assert (T := scan_items_keeps_bits rest (Z.lor m (slang_t.bit c))
                 (slang_t.index c)).
  rewrite H in T. simpl in T. rewrite E, Z.bits_0 in T.
  rewrite Z.lor_spec, bit_testbit, Z.eqb_refl, orb_true_r in T.
  specialize (T eq_refl). discriminate.
Qed.

Lemma slang_ok_nonzero (v : string) : slang_ok v = true -> slang_of v <> 0.
Proof.
  intros H. unfold slang_of. rewrite parse_slang_scan.
  apply (scan_items_none (split v ":") 0) in H.
  destruct (scan_items 0 (split v ":")) as [m [bad|]] eqn:E;
    [discriminate|].
  simpl. apply (scan_items_nonzero (split v ":") 0 m); [|exact E].
  apply split_not_nil.
Qed.

Lemma slang_of_range (v : string) : 0 <= slang_of v < 2 ^ slang_t.NUM.
Proof. apply parse_slang_items_range. Qed.

Lemma args_after_slang_range (evs : list getopt_event) :
  0 <= slang (args_after args_default evs) < 2 ^ slang_t.NUM.
Proof.
  rewrite args_after_slang.
  destruct (last_arg "l" evs) as [v|]; [apply slang_of_range|].
  vm_compute. split; congruence.
Qed.

(** The value [last_arg] finds belongs to an event of the sequence. *)
Lemma last_arg_in (c : ascii) (evs : list getopt_event) (v : string) :
  last_arg c evs = Some v -> In (chr c, v) evs.
Proof.
  induction evs as [|[opt s] evs IH]; simpl; [discriminate|].
  destruct (last_arg c evs) as [v'|].
  - intros H. right. now apply IH.
  - unfold is_opt. simpl fst. simpl snd.
    destruct (Z.eqb_spec opt (chr c)) as [->|_]; [|discriminate].
    intros H. injection H as ->. now left.
Qed.

Lemma last_arg_none (c : ascii) (evs : list getopt_event) :
  last_arg c evs = None <-> existsb (is_opt c) evs = false.
Proof.
  induction evs as [|ev evs IH]; simpl; [tauto|].
  destruct (last_arg c evs) as [v'|].
  - split; [discriminate|]. intros H. apply orb_false_iff in H.
    destruct H as [_ H]. apply IH in H. discriminate.
  - destruct (is_opt c ev); simpl; [split; discriminate|]. exact IH.
Qed.

(** X1.  A structure returned with [valid = true] is complete: the parse ran
    to the validator (no event ended it), [exit_code] is 0, [input] and
    [output] are non-empty and the mask is a non-zero set of language
    bits. *)
Theorem X1_valid_result_complete (evs : list getopt_event) :
  valid (fst (parse_events evs)) = true ->
  first_stop evs = None /\
  exit_code (fst (parse_events evs)) = 0 /\
  input (fst (parse_events evs)) <> EmptyString /\
  output (fst (parse_events evs)) <> EmptyString /\
  0 < slang (fst (parse_events evs)) < 2 ^ slang_t.NUM.
Proof.
  destruct (parse_events_outcome evs)
    as [[F [H E]]|[[pre [post [v [_ [_ [_ E]]]]]]
                  |[pre [post [v [m [bad [_ [_ [_ [_ E]]]]]]]]]]];
    rewrite E; simpl; try discriminate.
  intros V. rewrite V. split; [exact F|]. split; [reflexivity|].
  unfold checks_pass in V.
  apply andb_true_iff in V. destruct V as [V Vs].
  apply andb_true_iff in V. destruct V as [Vi Vo].
  assert (R := args_after_slang_range evs).
  destruct (input (args_after args_default evs)); [discriminate|].
  destruct (output (args_after args_default evs)); [discriminate|].
  apply negb_true_iff, Z.eqb_neq in Vs.
  change (2 ^ slang_t.NUM) with 64 in *.
  repeat split; try discriminate; lia.
Qed.

Lemma X1_witness :
  first_stop [(chr "o", "shd.h"); (chr "l", "glsl100:metal_ios");
              (chr "i", "shd.glsl")] = None /\
  exit_code (fst (parse ["-o"; "shd.h"; "-l"; "glsl100:metal_ios";
                         "-i"; "shd.glsl"])) = 0 /\
  input (fst (parse ["-o"; "shd.h"; "-l"; "glsl100:metal_ios";
                     "-i"; "shd.glsl"])) <> EmptyString /\
  output (fst (parse ["-o"; "shd.h"; "-l"; "glsl100:metal_ios";
                      "-i"; "shd.glsl"])) <> EmptyString /\
  0 < slang (fst (parse ["-o"; "shd.h"; "-l"; "glsl100:metal_ios";
                         "-i"; "shd.glsl"])) < 2 ^ slang_t.NUM.
Proof.
  exact (X1_valid_result_complete
           [(chr "o", "shd.h"); (chr "l", "glsl100:metal_ios");
            (chr "i", "shd.glsl")] eq_refl).
Defined.

(** X2.  Whatever the arguments, [exit_code] is 0 or 10 on return, 10 only
    together with [valid = false], and the mask returned fits the six
    language bits, also when the parse ends at the help flag or at an
    unknown language. *)
Theorem X2_exit_code_and_mask_range (evs : list getopt_event) :
  (exit_code (fst (parse_events evs)) = 0 \/
   (exit_code (fst (parse_events evs)) = 10 /\
    valid (fst (parse_events evs)) = false)) /\
  0 <= slang (fst (parse_events evs)) < 2 ^ slang_t.NUM.
Proof.
  destruct (parse_events_outcome evs)
    as [[F [H E]]|[[pre [post [v [_ [_ [_ E]]]]]]
                  |[pre [post [v [m [bad [_ [_ [_ [S E]]]]]]]]]]];
    rewrite E; simpl.
  - split; [|apply args_after_slang_range].
    destruct (checks_pass _); [now left | now right].
  - split; [now left | apply args_after_slang_range].
  - split; [now right|].
    assert (R := scan_items_range (split v ":") 0).
    rewrite S in R. apply R. vm_compute. split; congruence.
Qed.

(** ** What [parse_slang] changes *)

(** X3.  When [parse_slang] returns [true] it has selected at least one
    language: the mask it leaves is not zero (the empty text is not
    accepted as "no language"); it has written nothing and has left [valid]
    and [exit_code] as they were. *)
Theorem X3_parse_slang_success_nonzero (args : args_t) (str : string) :
  fst (fst (parse_slang args str)) = true ->
  slang (snd (fst (parse_slang args str))) <> 0 /\
  valid (snd (fst (parse_slang args str))) = valid args /\
  exit_code (snd (fst (parse_slang args str))) = exit_code args /\
  snd (parse_slang args str) = [].
Proof.
  rewrite parse_slang_result. intros H.
  rewrite (parse_slang_ok args str H). simpl.
  repeat split. now apply slang_ok_nonzero.
Qed.

Lemma X3_witness :
  slang (snd (fst (parse_slang args_default "hlsl5:glsl300es"))) <> 0 /\
  valid (snd (fst (parse_slang args_default "hlsl5:glsl300es")))
    = valid args_default /\
  exit_code (snd (fst (parse_slang args_default "hlsl5:glsl300es")))
    = exit_code args_default /\
  snd (parse_slang args_default "hlsl5:glsl300es") = [].
Proof.
  exact (X3_parse_slang_success_nonzero args_default "hlsl5:glsl300es"
           eq_refl).
Defined.

(** X4.  [parse_slang] never touches [input], [output], [byte_code] or
    [debug_dump]; it never sets [valid] to [true]: [valid] stays on success
    and becomes [false] on failure, and [exit_code] stays on success and
    becomes 10 on failure; it writes one message on failure and none on
    success. *)
Theorem X4_parse_slang_frame (args : args_t) (str : string) :
  let ok := fst (fst (parse_slang args str)) in
  let args' := snd (fst (parse_slang args str)) in
  input args' = input args /\ output args' = output args /\
  byte_code args' = byte_code args /\ debug_dump args' = debug_dump args /\
  valid args' = valid args && ok /\
  exit_code args' = (if ok then exit_code args else 10) /\
  length (snd (parse_slang args str)) = (if ok then 0 else 1)%nat.
Proof.
  rewrite parse_slang_scan.
  destruct (scan_items 0 (split str ":")) as [m [bad|]]; simpl;
    repeat split;
    try (symmetry; apply andb_false_r);
    try (symmetry; apply andb_true_r).
Qed.

(** ** Which validator message appears *)

Lemma validate_writes_in (a : args_t) :
  (In msg_no_input (validate_writes a) <-> input a = EmptyString) /\
  (In msg_no_output (validate_writes a) <-> output a = EmptyString) /\
  (In msg_no_slang (validate_writes a) <-> slang a = 0).
Proof.
  unfold validate_writes.
  destruct (input a) as [|c1 s1], (output a) as [|c2 s2];
    destruct (Z.eqb_spec (slang a) 0) as [E|E]; simpl;
    (repeat split; intros H;
     try discriminate; try assumption; try reflexivity; try tauto;
     repeat (destruct H as [H|H]; try discriminate; try contradiction)).
Qed.

Lemma in_scan_then_validate (evs : list getopt_event) (a : args_t)
      (w : stderr_write) :
  w = msg_no_input \/ w = msg_no_output \/ w = msg_no_slang ->
  (In w (flat_map scan_writes evs ++ validate_writes a) <->
   In w (validate_writes a)).
Proof.
  intros Hw. rewrite in_app_iff. split; [|tauto].
  intros [H|H]; [|exact H].
  apply flat_scan_writes_not_validation in H. exfalso.
  destruct H as [H1 [H2 H3]]. destruct Hw as [-> | [-> | ->]]; congruence.
Qed.

(** In a parse that reaches the validator a [-l] was either never given or
    has left a non-zero mask. *)
Lemma args_after_slang_zero (evs : list getopt_event) :
  forallb continues evs = true ->
  (slang (args_after args_default evs) = 0 <->
   existsb (is_opt "l") evs = false).
Proof.
  intros Hc. rewrite args_after_slang, <- last_arg_none.
  destruct (last_arg "l" evs) as [v|] eqn:L; [|simpl; tauto].
  split; [|discriminate]. intros Z0. exfalso.
  apply last_arg_in in L.
  rewrite forallb_forall in Hc. specialize (Hc _ L).
  rewrite continues_l in Hc. now apply (slang_ok_nonzero v Hc).
Qed.

(** X5.  When the parse reaches the validator, the message "no shader
    languages" is written exactly when the scan delivered no [-l] with a
    value (no event with code ['l']): a [-l] value that was accepted always
    selects a language.  "no input file" and "no output file" are written
    exactly when the scan delivered no [-i], respectively [-o], with a
    value, or the last one it delivered carries the empty text.  (A flag at
    the end of the argument list, without a value, is delivered as an
    invalid use, not as the flag.) *)
Theorem X5_missing_messages (evs : list getopt_event) :
  first_stop evs = None ->
  (In msg_no_slang (snd (parse_events evs)) <->
   existsb (is_opt "l") evs = false) /\
  (In msg_no_input (snd (parse_events evs)) <->
   last_arg "i" evs = None \/ last_arg "i" evs = Some EmptyString) /\
  (In msg_no_output (snd (parse_events evs)) <->
   last_arg "o" evs = None \/ last_arg "o" evs = Some EmptyString).
Proof.
  intros F. assert (Hc := first_stop_none evs F).
  unfold parse_events. rewrite (parse_from_continues evs args_default Hc).
  simpl snd.
  destruct (validate_writes_in (args_after args_default evs))
    as [Vi [Vo Vs]].
  split; [|split].
  - rewrite in_scan_then_validate by tauto.
    rewrite Vs. now apply args_after_slang_zero.
  - rewrite in_scan_then_validate by tauto.
    rewrite Vi, args_after_input.
    destruct (last_arg "i" evs) as [v|]; simpl.
    + split.
      * intros E. rewrite E. now right.
      * intros [H|H]; congruence.
    + split; [now left | reflexivity].
  - rewrite in_scan_then_validate by tauto.
    rewrite Vo, args_after_output.
    destruct (last_arg "o" evs) as [v|]; simpl.
    + split.
      * intros E. rewrite E. now right.
      * intros [H|H]; congruence.
    + split; [now left | reflexivity].
Qed.

Lemma X5_witness :
  (In msg_no_slang (snd (parse ["-i"; "shd.glsl"; "-o"; ""; "-b"])) <->
   existsb (is_opt "l")
     [(chr "i", "shd.glsl"); (chr "o", ""); (chr "b", "")] = false) /\
  (In msg_no_input (snd (parse ["-i"; "shd.glsl"; "-o"; ""; "-b"])) <->
   last_arg "i" [(chr "i", "shd.glsl"); (chr "o", ""); (chr "b", "")]
     = None \/
   last_arg "i" [(chr "i", "shd.glsl"); (chr "o", ""); (chr "b", "")]
     = Some EmptyString) /\
  (In msg_no_output (snd (parse ["-i"; "shd.glsl"; "-o"; ""; "-b"])) <->
   last_arg "o" [(chr "i", "shd.glsl"); (chr "o", ""); (chr "b", "")]
     = None \/
   last_arg "o" [(chr "i", "shd.glsl"); (chr "o", ""); (chr "b", "")]
     = Some EmptyString).
Proof.
  exact (X5_missing_messages
           [(chr "i", "shd.glsl"); (chr "o", ""); (chr "b", "")] eq_refl).
Defined.

(** ** The order of the flags *)

Lemma args_ext (a b : args_t) :
  valid a = valid b -> exit_code a = exit_code b ->
  input a = input b -> output a = output b -> slang a = slang b ->
  byte_code a = byte_code b -> debug_dump a = debug_dump b ->
  a = b.
Proof. destruct a, b; simpl; intros; subst; reflexivity. Qed.

(** X6.  When the parse reaches the validator, the structure returned
    depends only on the last value given to each of [-i], [-o] and [-l]
    and on whether [-b] and [-d] occur: the order of the flags, repeats and
    stray or unknown tokens in between make no difference. *)
Theorem X6_last_values_decide (evs evs' : list getopt_event) :
  first_stop evs = None -> first_stop evs' = None ->
  last_arg "i" evs = last_arg "i" evs' ->
  last_arg "o" evs = last_arg "o" evs' ->
  last_arg "l" evs = last_arg "l" evs' ->
  existsb (is_opt "b") evs = existsb (is_opt "b") evs' ->
  existsb (is_opt "d") evs = existsb (is_opt "d") evs' ->
  fst (parse_events evs) = fst (parse_events evs').
Proof.
  intros F F' Hi Ho Hl Hb Hd.
  unfold parse_events.
  rewrite (parse_from_continues evs args_default (first_stop_none evs F)).
  rewrite (parse_from_continues evs' args_default (first_stop_none evs' F')).
  simpl fst.
  set (a := args_after args_default evs).
  set (a' := args_after args_default evs').
  assert (Ei : input a = input a')
    by (unfold a, a'; now rewrite !args_after_input, Hi).
  assert (Eo : output a = output a')
    by (unfold a, a'; now rewrite !args_after_output, Ho).
  assert (El : slang a = slang a')
    by (unfold a, a'; now rewrite !args_after_slang, Hl).
  assert (Eb : byte_code a = byte_code a')
    by (unfold a, a'; now rewrite !args_after_byte_code, Hb).
  assert (Ed : debug_dump a = debug_dump a')
    by (unfold a, a'; now rewrite !args_after_debug_dump, Hd).
  assert (Ep : checks_pass a = checks_pass a')
    by (unfold checks_pass; now rewrite Ei, Eo, El).
  apply args_ext; simpl; try assumption. now rewrite Ep.
Qed.

Lemma X6_witness :
  fst (parse ["-i"; "old.glsl"; "-b"; "-l"; "glsl330"; "-o"; "shd.h";
              "-i"; "shd.glsl"; "-l"; "hlsl5"])
  = fst (parse ["stray"; "-l"; "hlsl5"; "-i"; "shd.glsl"; "-x";
                "-o"; "shd.h"; "-b"; "-b"]).
Proof.
  exact (X6_last_values_decide
           (getopt_events option_list
              ["-i"; "old.glsl"; "-b"; "-l"; "glsl330"; "-o"; "shd.h";
               "-i"; "shd.glsl"; "-l"; "hlsl5"])
           (getopt_events option_list
              ["stray"; "-l"; "hlsl5"; "-i"; "shd.glsl"; "-x";
               "-o"; "shd.h"; "-b"; "-b"])
           eq_refl eq_refl eq_refl eq_refl eq_refl eq_refl eq_refl).
Defined.

(** ** Help and slang errors among the writes *)

(** Only the help flag writes the help text, and only a failing [-l] writes
    an unknown-language message. *)
Lemma scan_writes_help (opt : Z) (v : string) :
  In (Emit help_preamble) (scan_writes (opt, v)) -> opt = chr "h".
Proof.
  unfold scan_writes, parse_opt. simpl fst. simpl snd.
  switch_on opt; simpl; try reflexivity; try contradiction;
    try (intros [H|[]]; vm_compute in H; discriminate).
  rewrite parse_slang_scan.
  destruct (scan_items 0 _) as [m [bad|]]; simpl; [|contradiction].
  intros [H|[]]. vm_compute in H. discriminate.
Qed.


Lemma continuing_no_help (evs : list getopt_event) :
  forallb continues evs = true ->
  ~ In (Emit help_preamble) (flat_map scan_writes evs).
Proof.
  intros Hc H. apply in_flat_map in H. destruct H as [[opt v] [Hin H]].
  apply scan_writes_help in H. subst opt.
  rewrite forallb_forall in Hc. specialize (Hc _ Hin). discriminate.
Qed.


Lemma validate_writes_only (a : args_t) (w : stderr_write) :
  In w (validate_writes a) ->
  w = msg_no_input \/ w = msg_no_output \/ w = msg_no_slang.
Proof.
  unfold validate_writes.
  destruct (is_empty (input a)), (is_empty (output a)), (slang a =? 0);
    simpl; intros H;
    repeat (destruct H as [H|H]; [symmetry in H; tauto|]);
    contradiction.
Qed.

(** X7.  The caller can tell a help request from every other outcome:
    [valid = false] together with [exit_code = 0] is returned exactly when
    the parse ended at the help flag, and exactly then the help text is
    among the writes. *)
Theorem X7_help_outcome (evs : list getopt_event) :
  (valid (fst (parse_events evs)) = false /\
   exit_code (fst (parse_events evs)) = 0 <-> help_reached evs = true) /\
  (In (Emit help_preamble) (snd (parse_events evs)) <->
   help_reached evs = true) /\
  (In (EmitOptionsHelp option_list) (snd (parse_events evs)) <->
   In (Emit help_preamble) (snd (parse_events evs))).
Proof.
  unfold help_reached.
  destruct (parse_events_outcome evs)
    as [[F [H E]]|[[pre [post [v [F [_ [Hp E]]]]]]
                  |[pre [post [v [m [bad [F [_ [Hp [_ E]]]]]]]]]]];
    rewrite E, F; simpl fst; simpl snd.
  - assert (N : ~ In (Emit help_preamble)
                  (flat_map scan_writes evs
                   ++ validate_writes (args_after args_default evs))).
    { intros K. apply in_app_or in K. destruct K as [K|K].
      - now apply (continuing_no_help evs H).
      - apply validate_writes_only in K.
        destruct K as [K|[K|K]]; vm_compute in K; discriminate. }
    assert (N' : ~ In (EmitOptionsHelp option_list)
                   (flat_map scan_writes evs
                    ++ validate_writes (args_after args_default evs))).
    { intros K. apply in_app_or in K. destruct K as [K|K].
      - apply in_flat_map in K. destruct K as [[opt s] [Hin K]].
        rewrite forallb_forall in H. specialize (H _ Hin).
        revert K. unfold scan_writes, parse_opt. simpl fst. simpl snd.
        switch_on opt; simpl; try contradiction; try discriminate;
          try (intros [K|[]]; discriminate).
        rewrite continues_l in H.
        rewrite (parse_slang_ok args_default s H). simpl. contradiction.
      - apply validate_writes_only in K.
        destruct K as [K|[K|K]]; discriminate. }
    repeat split; try tauto; try discriminate.
    intros [V X]. simpl in V, X.
    destruct (checks_pass (args_after args_default evs)); discriminate.
  - repeat split; try reflexivity; intros _; apply in_or_app; right;
      simpl; tauto.
  - assert (N : ~ In (Emit help_preamble)
                  (flat_map scan_writes pre ++ [msg_unknown_slang bad])).
    { intros K. apply in_app_or in K. destruct K as [K|[K|[]]].
      - now apply (continuing_no_help pre Hp).
      - vm_compute in K. discriminate. }
    assert (N' : ~ In (EmitOptionsHelp option_list)
                   (flat_map scan_writes pre ++ [msg_unknown_slang bad])).
    { intros K. apply in_app_or in K. destruct K as [K|[K|[]]];
        [|discriminate].
      apply in_flat_map in K. destruct K as [[opt s] [Hin K]].
      rewrite forallb_forall in Hp. specialize (Hp _ Hin).
      revert K. unfold scan_writes, parse_opt. simpl fst. simpl snd.
      switch_on opt; simpl; try contradiction; try discriminate;
        try (intros [K|[]]; discriminate).
      rewrite continues_l in Hp.
      rewrite (parse_slang_ok args_default s Hp). simpl. contradiction. }
    repeat split; try tauto; try discriminate.
    intros [_ X]. simpl in X. discriminate.
Qed.



(** ** Where the fields come from *)

Lemma args_after_input_from (evs : list getopt_event) :
  input (args_after args_default evs) = EmptyString \/
  In (chr "i", input (args_after args_default evs)) evs.
Proof.
  rewrite args_after_input.
  destruct (last_arg "i" evs) as [v|] eqn:L; [|now left].
  right. now apply last_arg_in.
Qed.

Lemma args_after_output_from (evs : list getopt_event) :
  output (args_after args_default evs) = EmptyString \/
  In (chr "o", output (args_after args_default evs)) evs.
Proof.
  rewrite args_after_output.
  destruct (last_arg "o" evs) as [v|] eqn:L; [|now left].
  right. now apply last_arg_in.
Qed.

Lemma existsb_app_l (f : getopt_event -> bool) (pre post : list getopt_event) :
  existsb f pre = true -> existsb f (pre ++ post) = true.
Proof. intros H. now rewrite existsb_app, H. Qed.

(** X9.  The parser invents nothing: on every return [input] and [output]
    are empty or the value of a [-i], respectively [-o], of the argument
    list, and [byte_code] and [debug_dump] are [true] only if [-b],
    respectively [-d], occurs in it. *)
Theorem X9_fields_come_from_flags (evs : list getopt_event) :
  (input (fst (parse_events evs)) = EmptyString \/
   In (chr "i", input (fst (parse_events evs))) evs) /\
  (output (fst (parse_events evs)) = EmptyString \/
   In (chr "o", output (fst (parse_events evs))) evs) /\
  (byte_code (fst (parse_events evs)) = true ->
   existsb (is_opt "b") evs = true) /\
  (debug_dump (fst (parse_events evs)) = true ->
   existsb (is_opt "d") evs = true).
Proof.
  destruct (parse_events_outcome evs)
    as [[F [H E]]|[[pre [post [v [_ [-> [_ E]]]]]]
                  |[pre [post [v [m [bad [_ [-> [_ [_ E]]]]]]]]]]];
    rewrite E; simpl fst;
    change (input (set_exit_code (set_valid ?a _) _)) with (input a);
    change (output (set_exit_code (set_valid ?a _) _)) with (output a);
    simpl.
  - split; [apply args_after_input_from|].
    split; [apply args_after_output_from|].
    rewrite args_after_byte_code, args_after_debug_dump.
    simpl. rewrite !orb_false_r. tauto.
  - split; [|split; [|split]].
    + destruct (args_after_input_from pre) as [K|K]; [now left | right].
      apply in_or_app. now left.
    + destruct (args_after_output_from pre) as [K|K]; [now left | right].
      apply in_or_app. now left.
    + rewrite args_after_byte_code. simpl. rewrite orb_false_r.
      apply existsb_app_l.
    + rewrite args_after_debug_dump. simpl. rewrite orb_false_r.
      apply existsb_app_l.
  - split; [|split; [|split]].
    + destruct (args_after_input_from pre) as [K|K]; [now left | right].
      apply in_or_app. now left.
    + destruct (args_after_output_from pre) as [K|K]; [now left | right].
      apply in_or_app. now left.
    + rewrite args_after_byte_code. simpl. rewrite orb_false_r.
      apply existsb_app_l.
    + rewrite args_after_debug_dump. simpl. rewrite orb_false_r.
      apply existsb_app_l.
Qed.

(** ** Colons at the wrong place *)

Lemma split_from_ends_with_sep (sep : ascii) (s : string) :
  forall cur,
    In EmptyString
       (split_from cur (s ++ String sep EmptyString) sep).
Proof.
  induction s as [|c s IH]; intros cur; simpl.
  - rewrite Ascii.eqb_refl. simpl. tauto.
  - destruct (Ascii.eqb c sep); [right|]; apply IH.
Qed.

Lemma split_from_doubled_sep (sep : ascii) (s t : string) :
  forall cur,
    In EmptyString
       (split_from cur (s ++ String sep (String sep t)) sep).
Proof.
  induction s as [|c s IH]; intros cur; simpl.
  - rewrite !Ascii.eqb_refl. simpl. tauto.
  - destruct (Ascii.eqb c sep); [right|]; apply IH.
Qed.

Lemma empty_piece_fails (args : args_t) (str : string) :
  In EmptyString (split str ":") ->
  fst (fst (parse_slang args str)) = false /\
  valid (snd (fst (parse_slang args str))) = false /\
  exit_code (snd (fst (parse_slang args str))) = 10.
Proof.
  intros H.
  assert (K : slang_ok str = false).
  { unfold slang_ok. apply not_true_is_false. intros T.
    rewrite forallb_forall in T. specialize (T _ H). discriminate. }
  destruct (parse_slang_fail args str K) as [m [bad [_ E]]].
  rewrite E. repeat split.
Qed.

(** X10.  [parse_slang] rejects every text with a colon at the wrong place:
    the empty text, a text that starts or ends with a colon, and a text with
    two colons in a row all give [false] with [valid = false] and
    [exit_code = 10], whatever the rest of the text is. *)
Theorem X10_misplaced_colon_rejected (args : args_t) (s t : string) :
  let rejected str :=
    fst (fst (parse_slang args str)) = false /\
    valid (snd (fst (parse_slang args str))) = false /\
    exit_code (snd (fst (parse_slang args str))) = 10 in
  rejected EmptyString /\
  rejected (":" ++ t) /\
  rejected (s ++ ":") /\
  rejected (s ++ "::" ++ t).
Proof.
  intros rejected. unfold rejected.
  split; [|split; [|split]]; apply empty_piece_fails.
  - simpl. tauto.
  - simpl. tauto.
  - apply split_from_ends_with_sep.
  - apply split_from_doubled_sep.
Qed.

(** ** The verdict the structure is created with *)

(** X11.  Every path through [args_t::parse] assigns [valid] and
    [exit_code] before it returns (the help case, the failing [-l] and the
    validator): the structure returned and the writes are the same whatever
    values the two fields hold when the structure is created. *)
Theorem X11_initial_verdict_overwritten
        (evs : list getopt_event) (v : bool) (e : Z) :
  parse_from (set_exit_code (set_valid args_default v) e) evs
  = parse_events evs.
Proof. apply parse_from_init_irrelevant. Qed.
